(** * snowflakepro: the 128-bit sortable identifier and its generator

    A shallow embedding of [id.go] (the [SFID] codec) and of the
    [SnowflakePro] generator, followed by the properties of the
    specification that were checked against them.

    Conventions.  A Go [byte], [uint16], [uint32] or [uint64] is a [Z] in
    the range of its width; every operation that can leave the range in Go
    has its wrap-around written out ([shl8], [to_byte], [to_uint64], ...).
    A [[]byte] is a [list Z]; a Go [string] is a [string], converted to and
    from its bytes by [bytes_of_string] and [string_of_bytes].  A method
    with a pointer receiver takes the identifier before the call and
    returns the identifier after it, next to the [error] it reports. *)

From Stdlib Require Import ZArith String Ascii Lia Bool List Sorted.
Import ListNotations.
Local Open Scope Z_scope.

(** ** Machine integers *)

Definition to_byte (x : Z) : Z := x mod 2 ^ 8.
Definition to_uint16 (x : Z) : Z := x mod 2 ^ 16.
Definition to_uint32 (x : Z) : Z := x mod 2 ^ 32.
Definition to_uint64 (x : Z) : Z := x mod 2 ^ 64.
Definition to_int64 (x : Z) : Z := (x + 2 ^ 63) mod 2 ^ 64 - 2 ^ 63.

(** [x << n] at each unsigned width; [x >> n] never leaves the range. *)
Definition shl8 (x n : Z) : Z := to_byte (Z.shiftl x n).
Definition shl16 (x n : Z) : Z := to_uint16 (Z.shiftl x n).
Definition shl32 (x n : Z) : Z := to_uint32 (Z.shiftl x n).
Definition shl64 (x n : Z) : Z := to_uint64 (Z.shiftl x n).
Definition shr (x n : Z) : Z := Z.shiftr x n.

Definition is_byte (x : Z) : Prop := 0 <= x < 256.

(** ** Byte slices and strings *)

(** [l.[i]] reads index [i]; every read of the source is in range. *)
Notation "l .[ i ]" := (nth i%nat l 0)
  (at level 1, left associativity, format "l .[ i ]").

(** [l[i] = x]. *)
Fixpoint upd (l : list Z) (i : nat) (x : Z) : list Z :=
  match l, i with
  | [], _ => []
  | _ :: t, O => x :: t
  | h :: t, S j => h :: upd t j x
  end.

(** The builtin [copy(dst, src)]: the first [min (len dst) (len src)]
    elements of [dst] are overwritten. *)
Definition copy (dst src : list Z) : list Z :=
  let n := Nat.min (length dst) (length src) in
  firstn n src ++ skipn n dst.

Definition byte_of_ascii (c : ascii) : Z := Z.of_N (N_of_ascii c).
Definition ascii_of_byte (b : Z) : ascii := ascii_of_N (Z.to_N b).

(** [[]byte(s)] and [string(b)]. *)
Definition bytes_of_string (s : string) : list Z :=
  map byte_of_ascii (list_ascii_of_string s).
Definition string_of_bytes (b : list Z) : string :=
  string_of_list_ascii (map ascii_of_byte b).

(** [bytes.Compare] of the Go library: lexicographic, a proper prefix is
    smaller, the result is -1, 0 or +1. *)
Fixpoint bytes_Compare (a b : list Z) : Z :=
  match a, b with
  | [], [] => 0
  | [], _ :: _ => -1
  | _ :: _, [] => 1
  | x :: a', y :: b' =>
      if x <? y then -1 else if y <? x then 1 else bytes_Compare a' b'
  end.

(** Comparison of two Go strings ([strings.Compare], the operators [<] and
    [==] on strings): lexicographic on their bytes. *)
Definition strings_Compare (s t : string) : Z :=
  bytes_Compare (bytes_of_string s) (bytes_of_string t).

(** ** Errors *)

Inductive error : Set :=
| ErrDataSize
| ErrInvalidCharacters
| ErrBufferSize
| ErrBigTime
| ErrBigNonce
| ErrBigSN
| ErrOverflow
| ErrScanValue.

(** ** The identifier *)

(** [type SFID [16]byte]. *)
Definition SFID : Type := list Z.

Definition SFID_len : nat := 16.

Definition wf_SFID (id : SFID) : Prop :=
  length id = SFID_len /\ Forall is_byte id.

(** The zero value of [SFID]. *)
Definition zero_SFID : SFID := repeat 0 SFID_len.

Definition Encoding : string := "0123456789ABCDEFGHJKMNPQRSTVWXYZ".

(** [Encoding[i]]. *)
Definition Encoding_at (i : Z) : Z :=
  match String.get (Z.to_nat i) Encoding with
  | Some c => byte_of_ascii c
  | None => 0
  end.

Definition EncodedSize : nat := 26.

Definition dec_table : list Z := [
  0xFF; 0xFF; 0xFF; 0xFF; 0xFF; 0xFF; 0xFF; 0xFF; 0xFF; 0xFF;
  0xFF; 0xFF; 0xFF; 0xFF; 0xFF; 0xFF; 0xFF; 0xFF; 0xFF; 0xFF;
  0xFF; 0xFF; 0xFF; 0xFF; 0xFF; 0xFF; 0xFF; 0xFF; 0xFF; 0xFF;
  0xFF; 0xFF; 0xFF; 0xFF; 0xFF; 0xFF; 0xFF; 0xFF; 0xFF; 0xFF;
  0xFF; 0xFF; 0xFF; 0xFF; 0xFF; 0xFF; 0xFF; 0xFF; 0x00; 0x01;
  0x02; 0x03; 0x04; 0x05; 0x06; 0x07; 0x08; 0x09; 0xFF; 0xFF;
  0xFF; 0xFF; 0xFF; 0xFF; 0xFF; 0x0A; 0x0B; 0x0C; 0x0D; 0x0E;
  0x0F; 0x10; 0x11; 0xFF; 0x12; 0x13; 0xFF; 0x14; 0x15; 0xFF;
  0x16; 0x17; 0x18; 0x19; 0x1A; 0xFF; 0x1B; 0x1C; 0x1D; 0x1E;
  0x1F; 0xFF; 0xFF; 0xFF; 0xFF; 0xFF; 0xFF; 0x0A; 0x0B; 0x0C;
  0x0D; 0x0E; 0x0F; 0x10; 0x11; 0xFF; 0x12; 0x13; 0xFF; 0x14;
  0x15; 0xFF; 0x16; 0x17; 0x18; 0x19; 0x1A; 0xFF; 0x1B; 0x1C;
  0x1D; 0x1E; 0x1F; 0xFF; 0xFF; 0xFF; 0xFF; 0xFF; 0xFF; 0xFF;
  0xFF; 0xFF; 0xFF; 0xFF; 0xFF; 0xFF; 0xFF; 0xFF; 0xFF; 0xFF;
  0xFF; 0xFF; 0xFF; 0xFF; 0xFF; 0xFF; 0xFF; 0xFF; 0xFF; 0xFF;
  0xFF; 0xFF; 0xFF; 0xFF; 0xFF; 0xFF; 0xFF; 0xFF; 0xFF; 0xFF;
  0xFF; 0xFF; 0xFF; 0xFF; 0xFF; 0xFF; 0xFF; 0xFF; 0xFF; 0xFF;
  0xFF; 0xFF; 0xFF; 0xFF; 0xFF; 0xFF; 0xFF; 0xFF; 0xFF; 0xFF;
  0xFF; 0xFF; 0xFF; 0xFF; 0xFF; 0xFF; 0xFF; 0xFF; 0xFF; 0xFF;
  0xFF; 0xFF; 0xFF; 0xFF; 0xFF; 0xFF; 0xFF; 0xFF; 0xFF; 0xFF;
  0xFF; 0xFF; 0xFF; 0xFF; 0xFF; 0xFF; 0xFF; 0xFF; 0xFF; 0xFF;
  0xFF; 0xFF; 0xFF; 0xFF; 0xFF; 0xFF; 0xFF; 0xFF; 0xFF; 0xFF;
  0xFF; 0xFF; 0xFF; 0xFF; 0xFF; 0xFF; 0xFF; 0xFF; 0xFF; 0xFF;
  0xFF; 0xFF; 0xFF; 0xFF; 0xFF; 0xFF; 0xFF; 0xFF; 0xFF; 0xFF;
  0xFF; 0xFF; 0xFF; 0xFF; 0xFF; 0xFF; 0xFF; 0xFF; 0xFF; 0xFF;
  0xFF; 0xFF; 0xFF; 0xFF; 0xFF; 0xFF ].

(** [dec[c]], the byte to index table; 0xFF marks an invalid byte. *)
Definition dec (c : Z) : Z := nth (Z.to_nat c) dec_table 0xFF.

Definition parse (v : list Z) (strict : bool) (id : SFID)
  : SFID * option error :=
  if negb (Nat.eqb (length v) EncodedSize) then (id, Some ErrDataSize)
  else if strict &&
      ((dec v.[0] =? 0xFF) ||
       (dec v.[1] =? 0xFF) ||
       (dec v.[2] =? 0xFF) ||
       (dec v.[3] =? 0xFF) ||
       (dec v.[4] =? 0xFF) ||
       (dec v.[5] =? 0xFF) ||
       (dec v.[6] =? 0xFF) ||
       (dec v.[7] =? 0xFF) ||
       (dec v.[8] =? 0xFF) ||
       (dec v.[9] =? 0xFF) ||
       (dec v.[10] =? 0xFF) ||
       (dec v.[11] =? 0xFF) ||
       (dec v.[12] =? 0xFF) ||
       (dec v.[13] =? 0xFF) ||
       (dec v.[14] =? 0xFF) ||
       (dec v.[15] =? 0xFF) ||
       (dec v.[16] =? 0xFF) ||
       (dec v.[17] =? 0xFF) ||
       (dec v.[18] =? 0xFF) ||
       (dec v.[19] =? 0xFF) ||
       (dec v.[20] =? 0xFF) ||
       (dec v.[21] =? 0xFF) ||
       (dec v.[22] =? 0xFF) ||
       (dec v.[23] =? 0xFF) ||
       (dec v.[24] =? 0xFF) ||
       (dec v.[25] =? 0xFF))
  then (id, Some ErrInvalidCharacters)
  else if v.[0] >? byte_of_ascii "7" then (id, Some ErrOverflow)
  else
    let id := upd id 0 (Z.lor (shl8 (dec v.[0]) 5) (dec v.[1])) in
    let id := upd id 1 (Z.lor (shl8 (dec v.[2]) 3) (shr (dec v.[3]) 2)) in
    let id := upd id 2 (Z.lor (Z.lor (shl8 (dec v.[3]) 6) (shl8 (dec v.[4]) 1)) (shr (dec v.[5]) 4)) in
    let id := upd id 3 (Z.lor (shl8 (dec v.[5]) 4) (shr (dec v.[6]) 1)) in
    let id := upd id 4 (Z.lor (Z.lor (shl8 (dec v.[6]) 7) (shl8 (dec v.[7]) 2)) (shr (dec v.[8]) 3)) in
    let id := upd id 5 (Z.lor (shl8 (dec v.[8]) 5) (dec v.[9])) in
    let id := upd id 6 (Z.lor (shl8 (dec v.[10]) 3) (shr (dec v.[11]) 2)) in
    let id := upd id 7 (Z.lor (Z.lor (shl8 (dec v.[11]) 6) (shl8 (dec v.[12]) 1)) (shr (dec v.[13]) 4)) in
    let id := upd id 8 (Z.lor (shl8 (dec v.[13]) 4) (shr (dec v.[14]) 1)) in
    let id := upd id 9 (Z.lor (Z.lor (shl8 (dec v.[14]) 7) (shl8 (dec v.[15]) 2)) (shr (dec v.[16]) 3)) in
    let id := upd id 10 (Z.lor (shl8 (dec v.[16]) 5) (dec v.[17])) in
    let id := upd id 11 (Z.lor (shl8 (dec v.[18]) 3) (shr (dec v.[19]) 2)) in
    let id := upd id 12 (Z.lor (Z.lor (shl8 (dec v.[19]) 6) (shl8 (dec v.[20]) 1)) (shr (dec v.[21]) 4)) in
    let id := upd id 13 (Z.lor (shl8 (dec v.[21]) 4) (shr (dec v.[22]) 1)) in
    let id := upd id 14 (Z.lor (Z.lor (shl8 (dec v.[22]) 7) (shl8 (dec v.[23]) 2)) (shr (dec v.[24]) 3)) in
    let id := upd id 15 (Z.lor (shl8 (dec v.[24]) 5) (dec v.[25])) in
    (id, None).

(** [Parse] and [ParseStrict] decode into a fresh, zero identifier and
    return it with the error. *)
Definition Parse (s : string) : SFID * option error :=
  parse (bytes_of_string s) false zero_SFID.

Definition ParseStrict (s : string) : SFID * option error :=
  parse (bytes_of_string s) true zero_SFID.

Definition MarshalBinaryTo (id : SFID) (dst : list Z)
  : list Z * option error :=
  if negb (Nat.eqb (length dst) SFID_len) then (dst, Some ErrBufferSize)
  else (copy dst id, None).

Definition MarshalBinary (id : SFID) : list Z * option error :=
  MarshalBinaryTo id (repeat 0 SFID_len).

Definition UnmarshalBinary (id : SFID) (data : list Z)
  : SFID * option error :=
  if negb (Nat.eqb (length data) SFID_len) then (id, Some ErrDataSize)
  else (copy id data, None).

Definition MarshalTextTo (id : SFID) (dst : list Z)
  : list Z * option error :=
  if negb (Nat.eqb (length dst) EncodedSize) then (dst, Some ErrBufferSize)
  else
    let dst := upd dst 0 (Encoding_at (shr (Z.land id.[0] 224) 5)) in
    let dst := upd dst 1 (Encoding_at (Z.land id.[0] 31)) in
    let dst := upd dst 2 (Encoding_at (shr (Z.land id.[1] 248) 3)) in
    let dst := upd dst 3 (Encoding_at (Z.lor (shl8 (Z.land id.[1] 7) 2) (shr (Z.land id.[2] 192) 6))) in
    let dst := upd dst 4 (Encoding_at (shr (Z.land id.[2] 62) 1)) in
    let dst := upd dst 5 (Encoding_at (Z.lor (shl8 (Z.land id.[2] 1) 4) (shr (Z.land id.[3] 240) 4))) in
    let dst := upd dst 6 (Encoding_at (Z.lor (shl8 (Z.land id.[3] 15) 1) (shr (Z.land id.[4] 128) 7))) in
    let dst := upd dst 7 (Encoding_at (shr (Z.land id.[4] 124) 2)) in
    let dst := upd dst 8 (Encoding_at (Z.lor (shl8 (Z.land id.[4] 3) 3) (shr (Z.land id.[5] 224) 5))) in
    let dst := upd dst 9 (Encoding_at (Z.land id.[5] 31)) in
    let dst := upd dst 10 (Encoding_at (shr (Z.land id.[6] 248) 3)) in
    let dst := upd dst 11 (Encoding_at (Z.lor (shl8 (Z.land id.[6] 7) 2) (shr (Z.land id.[7] 192) 6))) in
    let dst := upd dst 12 (Encoding_at (shr (Z.land id.[7] 62) 1)) in
    let dst := upd dst 13 (Encoding_at (Z.lor (shl8 (Z.land id.[7] 1) 4) (shr (Z.land id.[8] 240) 4))) in
    let dst := upd dst 14 (Encoding_at (Z.lor (shl8 (Z.land id.[8] 15) 1) (shr (Z.land id.[9] 128) 7))) in
    let dst := upd dst 15 (Encoding_at (shr (Z.land id.[9] 124) 2)) in
    let dst := upd dst 16 (Encoding_at (Z.lor (shl8 (Z.land id.[9] 3) 3) (shr (Z.land id.[10] 224) 5))) in
    let dst := upd dst 17 (Encoding_at (Z.land id.[10] 31)) in
    let dst := upd dst 18 (Encoding_at (shr (Z.land id.[11] 248) 3)) in
    let dst := upd dst 19 (Encoding_at (Z.lor (shl8 (Z.land id.[11] 7) 2) (shr (Z.land id.[12] 192) 6))) in
    let dst := upd dst 20 (Encoding_at (shr (Z.land id.[12] 62) 1)) in
    let dst := upd dst 21 (Encoding_at (Z.lor (shl8 (Z.land id.[12] 1) 4) (shr (Z.land id.[13] 240) 4))) in
    let dst := upd dst 22 (Encoding_at (Z.lor (shl8 (Z.land id.[13] 15) 1) (shr (Z.land id.[14] 128) 7))) in
    let dst := upd dst 23 (Encoding_at (shr (Z.land id.[14] 124) 2)) in
    let dst := upd dst 24 (Encoding_at (Z.lor (shl8 (Z.land id.[14] 3) 3) (shr (Z.land id.[15] 224) 5))) in
    let dst := upd dst 25 (Encoding_at (Z.land id.[15] 31)) in
    (dst, None).

Definition MarshalText (id : SFID) : list Z * option error :=
  MarshalTextTo id (repeat 0 EncodedSize).

(** [String] drops the error of [MarshalTextTo]. *)
Definition String_ (id : SFID) : string :=
  string_of_bytes (fst (MarshalTextTo id (repeat 0 EncodedSize))).

Definition UnmarshalText (id : SFID) (v : list Z) : SFID * option error :=
  parse v false id.

(** ** Fields *)

Definition Time (id : SFID) : Z :=
  Z.lor (Z.lor (Z.lor (Z.lor (Z.lor
    id.[5] (shl64 id.[4] 8))
    (shl64 id.[3] 16)) (shl64 id.[2] 24))
    (shl64 id.[1] 32)) (shl64 id.[0] 40).

Definition Node (id : SFID) : Z :=
  Z.lor (shl16 id.[6] 8) id.[7].

Definition Nonce (id : SFID) : Z :=
  Z.lor (Z.lor (Z.lor (Z.lor
    (shl64 id.[8] 32) (shl64 id.[9] 24))
    (shl64 id.[10] 16)) (shl64 id.[11] 8)) id.[12].

Definition SN (id : SFID) : Z :=
  Z.lor (Z.lor (shl32 id.[13] 16) (shl32 id.[14] 8)) id.[15].

(** [SFID{0xFF, 0xFF, 0xFF, 0xFF, 0xFF, 0xFF}.Time()]. *)
Definition maxTime : Z :=
  Time [0xFF; 0xFF; 0xFF; 0xFF; 0xFF; 0xFF; 0; 0; 0; 0; 0; 0; 0; 0; 0; 0].

Definition MaxTime : Z := maxTime.

Definition SetTime (id : SFID) (ms : Z) : SFID * option error :=
  if ms >? maxTime then (id, Some ErrBigTime)
  else
    let id := upd id 0 (to_byte (shr ms 40)) in
    let id := upd id 1 (to_byte (shr ms 32)) in
    let id := upd id 2 (to_byte (shr ms 24)) in
    let id := upd id 3 (to_byte (shr ms 16)) in
    let id := upd id 4 (to_byte (shr ms 8)) in
    let id := upd id 5 (to_byte ms) in
    (id, None).

Definition SetNode (id : SFID) (node : Z) : SFID :=
  let id := upd id 6 (to_byte (shr node 8)) in
  let id := upd id 7 (to_byte node) in
  id.

Definition MaxNonce : Z := 0xFFFFFFFFFF.
Definition maxSN : Z := to_uint32 (shl32 1 24 - 1).

Definition SetNonce (id : SFID) (nonce : Z) : SFID * option error :=
  if nonce >? MaxNonce then (id, Some ErrBigNonce)
  else
    let id := upd id 8 (to_byte (shr nonce 32)) in
    let id := upd id 9 (to_byte (shr nonce 24)) in
    let id := upd id 10 (to_byte (shr nonce 16)) in
    let id := upd id 11 (to_byte (shr nonce 8)) in
    let id := upd id 12 (to_byte nonce) in
    (id, None).

Definition SetSN (id : SFID) (sn : Z) : SFID * option error :=
  if sn >? maxSN then (id, Some ErrBigSN)
  else
    let id := upd id 13 (to_byte (shr sn 16)) in
    let id := upd id 14 (to_byte (shr sn 8)) in
    let id := upd id 15 (to_byte sn) in
    (id, None).

Definition Compare (id other : SFID) : Z := bytes_Compare id other.

(** ** The remaining operations of the identifier *)

(** [Bytes]: the slice [id[:]]. *)
Definition Bytes (id : SFID) : list Z := id.

(** A call that returns a value or panics with an error. *)
Inductive outcome (A : Type) : Type :=
| Returns (a : A)
| Panics (e : error).

Arguments Returns {A} a.
Arguments Panics {A} e.

Definition MustParse (s : string) : outcome SFID :=
  let (id, err) := Parse s in
  match err with
  | Some e => Panics e
  | None => Returns id
  end.

Definition MustParseStrict (s : string) : outcome SFID :=
  let (id, err) := ParseStrict s in
  match err with
  | Some e => Panics e
  | None => Returns id
  end.

(** [Timestamp]: the seconds and the nanoseconds it hands to [time.Unix],
    both converted from [uint64] to [int64]. *)
Definition Timestamp (id : SFID) : Z * Z :=
  let ms := Time id in
  let s := to_int64 (ms / 1000) in
  let ns := to_int64 (to_uint64 ((ms mod 1000) * 1000000)) in
  (s, ns).

(** ** Database binding *)

(** The dynamic type of the [interface{}] handed to [Scan]: the values a
    [database/sql] driver produces. *)
Inductive scan_source : Type :=
| SrcNil
| SrcString (x : string)
| SrcBytes (x : list Z)
| SrcInt64 (x : Z)
| SrcFloat64 (bits : Z)
| SrcBool (x : bool)
| SrcTime (unixNano : Z).

Definition Scan (id : SFID) (src : scan_source) : SFID * option error :=
  match src with
  | SrcNil => (id, None)
  | SrcString x => UnmarshalText id (bytes_of_string x)
  | SrcBytes x => UnmarshalBinary id x
  | _ => (id, Some ErrScanValue)
  end.

Definition Value (id : SFID) : list Z * option error := MarshalBinary id.

(** ** The generator *)

Definition SNMask : Z := 0xFFFFFF.

Record SnowflakePro : Type := mkSnowflakePro {
  sn : Z;
  node : Z;
  nonce : Z;
  tms : Z
}.

Definition NewSnowflakePro (nodeid nonce : Z)
  : option SnowflakePro * option error :=
  if nonce >? MaxNonce then (None, Some ErrBigNonce)
  else (Some {| sn := 0; node := nodeid; nonce := nonce; tms := 0 |}, None).

Section Generator.

(** The wall clock: [clock k] is what the [k]-th evaluation of
    [time.Now().UnixMilli()] returns, an [int64].  The state of the world
    is the number of readings made so far. *)
Variable clock : nat -> Z.

(** [until] leaves its loop once a reading reaches [tms]; between two
    readings it only sleeps.  [fuel] bounds the number of readings, [None]
    is a loop that has not yet ended. *)
Fixpoint until (fuel : nat) (tms : Z) (k : nat) : option nat :=
  match fuel with
  | O => None
  | S fuel' =>
      let dur := to_int64 (tms - clock k) in
      if dur >? 0 then until fuel' tms (S k) else Some (S k)
  end.

(** The critical section of [Next]: the part between [Lock] and
    [Unlock].  The calls considered here do not overlap, so the mutex
    itself is not modelled. *)
Definition Next_locked (fuel : nat) (s : SnowflakePro) (k : nat)
  : option (SnowflakePro * nat) :=
  let now := to_uint64 (clock k) in
  let k := S k in
  if now <=? tms s then
    let s := {| sn := Z.land (to_uint32 (sn s + 1)) SNMask;
                node := node s; nonce := nonce s; tms := tms s |} in
    if sn s =? 0 then
      let s := {| sn := sn s; node := node s; nonce := nonce s;
                  tms := to_uint64 (tms s + 1) |} in
      match until fuel (to_int64 (tms s)) k with
      | Some k' => Some (s, k')
      | None => None
      end
    else Some (s, k)
  else
    let s := {| sn := 0; node := node s; nonce := nonce s; tms := now |} in
    Some (s, k).

(** [Next]: the generator and the world after the call, and the
    identifier returned.  The errors of the setters are dropped, as in
    the source. *)
Definition Next (fuel : nat) (s : SnowflakePro) (k : nat)
  : option (SnowflakePro * nat * SFID) :=
  let sfid := zero_SFID in
  let sfid := SetNode sfid (node s) in
  let sfid := fst (SetNonce sfid (nonce s)) in
  match Next_locked fuel s k with
  | None => None
  | Some (s, k) =>
      let tms := tms s in
      let sn := sn s in
      let sfid := fst (SetTime sfid tms) in
      let sfid := fst (SetSN sfid sn) in
      Some (s, k, sfid)
  end.

(** A sequence of calls of [Next] on one generator, each returning before
    the next begins: the identifiers returned, in the order of the calls,
    between the generator and the world before the first call and after the
    last. *)
Inductive calls
  : SnowflakePro -> nat -> list SFID -> SnowflakePro -> nat -> Prop :=
| calls_none (s : SnowflakePro) (k : nat) : calls s k [] s k
| calls_next (fuel : nat) (s : SnowflakePro) (k : nat)
    (s1 : SnowflakePro) (k1 : nat) (id : SFID)
    (ids : list SFID) (s2 : SnowflakePro) (k2 : nat) :
    Next fuel s k = Some (s1, k1, id) ->
    calls s1 k1 ids s2 k2 ->
    calls s k (id :: ids) s2 k2.

End Generator.

(** * Definitions used to state and prove the properties *)

(** The numbers below [n], to check a property of each by evaluation. *)
Definition below (n : nat) : list Z := map Z.of_nat (seq 0 n).


(** Membership of a byte in a set of symbols given as a string. *)
Definition in_symbols (symbols : string) (c : Z) : bool :=
  existsb (Z.eqb c) (bytes_of_string symbols).

(** The bytes [dec] maps to an index: the alphabet and the lowercase forms
    of its letters. *)
Definition decodable : string :=
  "0123456789ABCDEFGHJKMNPQRSTVWXYZabcdefghjkmnpqrstvwxyz".

(** A text of 26 characters that ends in a lowercase letter. *)
Definition lowercase_text : string := "0000000000000000000000000a".

(** The indices into [Encoding] that [MarshalTextTo] computes, in the
    order of the text. *)
Definition digits (id : SFID) : list Z := [
  shr (Z.land id.[0] 224) 5;
  Z.land id.[0] 31;
  shr (Z.land id.[1] 248) 3;
  Z.lor (shl8 (Z.land id.[1] 7) 2) (shr (Z.land id.[2] 192) 6);
  shr (Z.land id.[2] 62) 1;
  Z.lor (shl8 (Z.land id.[2] 1) 4) (shr (Z.land id.[3] 240) 4);
  Z.lor (shl8 (Z.land id.[3] 15) 1) (shr (Z.land id.[4] 128) 7);
  shr (Z.land id.[4] 124) 2;
  Z.lor (shl8 (Z.land id.[4] 3) 3) (shr (Z.land id.[5] 224) 5);
  Z.land id.[5] 31;
  shr (Z.land id.[6] 248) 3;
  Z.lor (shl8 (Z.land id.[6] 7) 2) (shr (Z.land id.[7] 192) 6);
  shr (Z.land id.[7] 62) 1;
  Z.lor (shl8 (Z.land id.[7] 1) 4) (shr (Z.land id.[8] 240) 4);
  Z.lor (shl8 (Z.land id.[8] 15) 1) (shr (Z.land id.[9] 128) 7);
  shr (Z.land id.[9] 124) 2;
  Z.lor (shl8 (Z.land id.[9] 3) 3) (shr (Z.land id.[10] 224) 5);
  Z.land id.[10] 31;
  shr (Z.land id.[11] 248) 3;
  Z.lor (shl8 (Z.land id.[11] 7) 2) (shr (Z.land id.[12] 192) 6);
  shr (Z.land id.[12] 62) 1;
  Z.lor (shl8 (Z.land id.[12] 1) 4) (shr (Z.land id.[13] 240) 4);
  Z.lor (shl8 (Z.land id.[13] 15) 1) (shr (Z.land id.[14] 128) 7);
  shr (Z.land id.[14] 124) 2;
  Z.lor (shl8 (Z.land id.[14] 3) 3) (shr (Z.land id.[15] 224) 5);
  Z.land id.[15] 31 ].

(** The bytes [parse] assembles from the decoded characters [d]. *)
Definition assemble (d : list Z) : list Z := [
  Z.lor (shl8 (d.[0]) 5) (d.[1]);
  Z.lor (shl8 (d.[2]) 3) (shr (d.[3]) 2);
  Z.lor (Z.lor (shl8 (d.[3]) 6) (shl8 (d.[4]) 1)) (shr (d.[5]) 4);
  Z.lor (shl8 (d.[5]) 4) (shr (d.[6]) 1);
  Z.lor (Z.lor (shl8 (d.[6]) 7) (shl8 (d.[7]) 2)) (shr (d.[8]) 3);
  Z.lor (shl8 (d.[8]) 5) (d.[9]);
  Z.lor (shl8 (d.[10]) 3) (shr (d.[11]) 2);
  Z.lor (Z.lor (shl8 (d.[11]) 6) (shl8 (d.[12]) 1)) (shr (d.[13]) 4);
  Z.lor (shl8 (d.[13]) 4) (shr (d.[14]) 1);
  Z.lor (Z.lor (shl8 (d.[14]) 7) (shl8 (d.[15]) 2)) (shr (d.[16]) 3);
  Z.lor (shl8 (d.[16]) 5) (d.[17]);
  Z.lor (shl8 (d.[18]) 3) (shr (d.[19]) 2);
  Z.lor (Z.lor (shl8 (d.[19]) 6) (shl8 (d.[20]) 1)) (shr (d.[21]) 4);
  Z.lor (shl8 (d.[21]) 4) (shr (d.[22]) 1);
  Z.lor (Z.lor (shl8 (d.[22]) 7) (shl8 (d.[23]) 2)) (shr (d.[24]) 3);
  Z.lor (shl8 (d.[24]) 5) (d.[25]) ].

(** The same indices, by division: the first byte gives 3 and 5 bits, every
    further group of five bytes gives eight indices of 5 bits. *)
Definition head_digits (a : Z) : list Z := [a / 32; a mod 32].

Definition group_digits (a b c d e : Z) : list Z :=
  [ a / 8;
    (a mod 8) * 4 + b / 64;
    (b mod 64) / 2;
    (b mod 2) * 16 + c / 16;
    (c mod 16) * 2 + d / 128;
    (d mod 128) / 4;
    (d mod 4) * 8 + e / 32;
    e mod 32 ].

(** An index into [Encoding]: 5 bits. *)
Definition is_digit (d : Z) : Prop := 0 <= d < 32.

(** The number a list of digits denotes in a base, most significant digit
    first; in base 256 it is the unsigned big-endian value of a byte
    sequence. *)
Fixpoint big_endian (base : Z) (l : list Z) : Z :=
  match l with
  | [] => 0
  | d :: t => d * base ^ Z.of_nat (length t) + big_endian base t
  end.

(** What the generator keeps true of its counters: the sequence number
    fits 24 bits and the timestamp fits the 48 bits of its field. *)
Definition gen_ok (s : SnowflakePro) : Prop :=
  0 <= sn s <= SNMask /\ 0 <= tms s <= maxTime.

(** The lexicographic order of the pairs (timestamp, sequence). *)
Definition precedes (s s' : SnowflakePro) : Prop :=
  tms s < tms s' \/ (tms s = tms s' /\ sn s < sn s').

(** The identifier [Next] builds from the four fields. *)
Definition identifier (node nonce tms sn : Z) : SFID :=
  let sfid := zero_SFID in
  let sfid := SetNode sfid node in
  let sfid := fst (SetNonce sfid nonce) in
  let sfid := fst (SetTime sfid tms) in
  fst (SetSN sfid sn).

(** The five bytes [SetNonce] leaves in a zero identifier. *)
Definition nonce_bytes (nonce : Z) : list Z :=
  if nonce >? MaxNonce then [0; 0; 0; 0; 0]
  else [to_byte (shr nonce 32); to_byte (shr nonce 24);
        to_byte (shr nonce 16); to_byte (shr nonce 8); to_byte nonce].

(** A wall clock that reads millisecond 4 once, then millisecond 5 for its
    next [2^24 + 1] readings, and a millisecond beyond the 48-bit field
    afterwards. *)
Definition stalled_clock (i : nat) : Z :=
  match i with
  | O => 4
  | S _ => if Z.of_nat i <=? 2 ^ 24 + 1 then 5 else 2 ^ 48 + 3
  end.


(** A wall clock that reads the last millisecond of the 48-bit field for
    its first [2^24 + 1] readings and the millisecond after it afterwards. *)
Definition last_ms_clock (i : nat) : Z :=
  if Z.of_nat i <=? 2 ^ 24 then maxTime else maxTime + 1.

(** The three-way comparison of two numbers. *)
Definition cmp (x y : Z) : Z :=
  match x ?= y with
  | Lt => -1
  | Eq => 0
  | Gt => 1
  end.

(** The symbol of the alphabet with the value a byte decodes to. *)
Definition canonical (c : Z) : Z := Encoding_at (dec c).

(** The uppercase form of an ASCII byte. *)
Definition upper_byte (c : Z) : Z :=
  if (byte_of_ascii "a" <=? c) && (c <=? byte_of_ascii "z") then c - 32
  else c.

(** The comparison of two identifiers field by field: timestamp, then
    node, then nonce, then sequence number. *)
Definition compare_fields (a b : SFID) : Z :=
  if negb (Time a =? Time b) then cmp (Time a) (Time b)
  else if negb (Node a =? Node b) then cmp (Node a) (Node b)
  else if negb (Nonce a =? Nonce b) then cmp (Nonce a) (Nonce b)
  else cmp (SN a) (SN b).

(** * Properties *)

(** ** The code on a few inputs *)

Example String_of_bytes :
  String_ [1; 2; 3; 4; 5; 6; 7; 8; 9; 10; 11; 12; 13; 14; 15; 16] =
  "01081G81860W40J2GB1G6GW3RG"%string.
Proof. reflexivity. Qed.

Example Parse_of_text :
  Parse "01081G81860W40J2GB1G6GW3RG" =
  ([1; 2; 3; 4; 5; 6; 7; 8; 9; 10; 11; 12; 13; 14; 15; 16], None).
Proof. reflexivity. Qed.

Example Parse_short :
  snd (Parse "01081G81860W40J2GB1G6GW3R") = Some ErrDataSize.
Proof. reflexivity. Qed.

Example Parse_overflow :
  snd (Parse "80000000000000000000000000") = Some ErrOverflow.
Proof. reflexivity. Qed.

Example Parse_invalid_character :
  Parse "0000000000000000000000000!" =
  ([0; 0; 0; 0; 0; 0; 0; 0; 0; 0; 0; 0; 0; 0; 0; 255], None) /\
  snd (ParseStrict "0000000000000000000000000!") = Some ErrInvalidCharacters.
Proof. split; reflexivity. Qed.

(** The first identifier of a generator with node 100 and nonce 123456789
    carries the node, the nonce, the reading of the clock and sequence 0. *)
Example Next_first_identifier :
  exists g g' id,
    NewSnowflakePro 100 123456789 = (Some g, None) /\
    Next (fun _ => 1700000000000) 0 g 0 = Some (g', 1%nat, id) /\
    Node id = 100 /\ Nonce id = 123456789 /\
    Time id = 1700000000000 /\ SN id = 0.
Proof. do 3 eexists; repeat split; reflexivity. Qed.

(** ** Lists updated by index *)

Lemma upd_length (l : list Z) (i : nat) (x : Z) :
  length (upd l i x) = length l.
Proof.
  revert i; induction l as [|h t IH]; intros [|j]; simpl; auto.
Qed.

Lemma nth_upd_same (l : list Z) (i : nat) (x : Z) :
  (i < length l)%nat -> (upd l i x).[i] = x.
Proof.
  revert i; induction l as [|h t IH]; intros [|j] Hlt; simpl in *;
    try lia; auto.
  apply IH; lia.
Qed.

Lemma nth_upd_other (l : list Z) (i j : nat) (x : Z) :
  i <> j -> (upd l i x).[j] = l.[j].
Proof.
  revert i j; induction l as [|h t IH]; intros [|i] [|j] Hne; simpl;
    try reflexivity; try contradiction.
  apply IH; congruence.
Qed.

Lemma copy_all (dst src : list Z) :
  length dst = length src -> copy dst src = src.
Proof.
  intros Hlen; unfold copy.
  rewrite Hlen, Nat.min_id, firstn_all.
  rewrite <- Hlen, skipn_all.
  apply app_nil_r.
Qed.

(** ** Failures leave the destination alone *)

Lemma parse_error_keeps (v : list Z) (strict : bool) (id : SFID) :
  snd (parse v strict id) <> None -> fst (parse v strict id) = id.
Proof.
  unfold parse.
  destruct (negb (length v =? EncodedSize)%nat); [reflexivity|].
  match goal with |- context [if ?c then (id, Some ErrInvalidCharacters) else _] =>
    destruct c end; [reflexivity|].
  destruct (v.[0] >? byte_of_ascii "7"); [reflexivity|].
  simpl; intros H; contradiction H; reflexivity.
Qed.

Lemma UnmarshalBinary_error_keeps (id : SFID) (data : list Z) :
  snd (UnmarshalBinary id data) <> None -> fst (UnmarshalBinary id data) = id.
Proof.
  unfold UnmarshalBinary.
  destruct (negb (length data =? SFID_len)%nat); [reflexivity|].
  simpl; intros H; contradiction H; reflexivity.
Qed.

Lemma SetTime_error_keeps (id : SFID) (ms : Z) :
  snd (SetTime id ms) <> None -> fst (SetTime id ms) = id.
Proof.
  unfold SetTime; destruct (ms >? maxTime); [reflexivity|].
  simpl; intros H; contradiction H; reflexivity.
Qed.

Lemma SetNonce_error_keeps (id : SFID) (n : Z) :
  snd (SetNonce id n) <> None -> fst (SetNonce id n) = id.
Proof.
  unfold SetNonce; destruct (n >? MaxNonce); [reflexivity|].
  simpl; intros H; contradiction H; reflexivity.
Qed.

Lemma SetSN_error_keeps (id : SFID) (n : Z) :
  snd (SetSN id n) <> None -> fst (SetSN id n) = id.
Proof.
  unfold SetSN; destruct (n >? maxSN); [reflexivity|].
  simpl; intros H; contradiction H; reflexivity.
Qed.

Lemma Scan_error_keeps (id : SFID) (src : scan_source) :
  snd (Scan id src) <> None -> fst (Scan id src) = id.
Proof.
  destruct src; simpl; try reflexivity.
  - apply parse_error_keeps.
  - apply UnmarshalBinary_error_keeps.
Qed.

(** C10: whenever [parse] (reached through [Parse], [ParseStrict],
    [UnmarshalText] or [Scan] of a string), [UnmarshalBinary], [SetTime],
    [SetNonce] or [SetSN] reports an error, the destination identifier after
    the call is the identifier before the call, byte for byte.  The
    destination of [Parse] and [ParseStrict] is their fresh zero
    identifier. *)
Theorem failing_operation_keeps_destination (id : SFID) :
  (forall v strict,
     snd (parse v strict id) <> None -> fst (parse v strict id) = id) /\
  (forall s, snd (Parse s) <> None -> fst (Parse s) = zero_SFID) /\
  (forall s, snd (ParseStrict s) <> None -> fst (ParseStrict s) = zero_SFID) /\
  (forall v,
     snd (UnmarshalText id v) <> None -> fst (UnmarshalText id v) = id) /\
  (forall s,
     snd (Scan id (SrcString s)) <> None -> fst (Scan id (SrcString s)) = id) /\
  (forall data,
     snd (UnmarshalBinary id data) <> None ->
     fst (UnmarshalBinary id data) = id) /\
  (forall ms, snd (SetTime id ms) <> None -> fst (SetTime id ms) = id) /\
  (forall n, snd (SetNonce id n) <> None -> fst (SetNonce id n) = id) /\
  (forall n, snd (SetSN id n) <> None -> fst (SetSN id n) = id).
Proof.
  repeat split; intros.
  - now apply parse_error_keeps.
  - now apply parse_error_keeps.
  - now apply parse_error_keeps.
  - now apply parse_error_keeps.
  - now apply Scan_error_keeps.
  - now apply UnmarshalBinary_error_keeps.
  - now apply SetTime_error_keeps.
  - now apply SetNonce_error_keeps.
  - now apply SetSN_error_keeps.
Qed.

(** ** Field isolation *)

(** C8: a setter leaves the three other fields as they were: the getters
    of the other fields return the same value on the identifier after the
    call as on the identifier before it, for every identifier and every
    argument (in range, where the setter writes, and out of range, where it
    writes nothing). *)
Theorem setters_frame (id : SFID) (x : Z) :
  (Node (fst (SetTime id x)) = Node id /\
   Nonce (fst (SetTime id x)) = Nonce id /\
   SN (fst (SetTime id x)) = SN id) /\
  (Time (SetNode id x) = Time id /\
   Nonce (SetNode id x) = Nonce id /\
   SN (SetNode id x) = SN id) /\
  (Time (fst (SetNonce id x)) = Time id /\
   Node (fst (SetNonce id x)) = Node id /\
   SN (fst (SetNonce id x)) = SN id) /\
  (Time (fst (SetSN id x)) = Time id /\
   Node (fst (SetSN id x)) = Node id /\
   Nonce (fst (SetSN id x)) = Nonce id).
Proof.
  assert (HT : forall i, (6 <= i)%nat -> (fst (SetTime id x)).[i] = id.[i]).
  { intros i Hi; unfold SetTime; destruct (x >? maxTime); simpl;
      [reflexivity|].
    repeat (rewrite nth_upd_other by lia); reflexivity. }
  assert (HN : forall i, (i < 6 \/ 8 <= i)%nat -> (SetNode id x).[i] = id.[i]).
  { intros i Hi; unfold SetNode.
    repeat (rewrite nth_upd_other by lia); reflexivity. }
  assert (HO : forall i, (i < 8 \/ 13 <= i)%nat ->
                         (fst (SetNonce id x)).[i] = id.[i]).
  { intros i Hi; unfold SetNonce; destruct (x >? MaxNonce); simpl;
      [reflexivity|].
    repeat (rewrite nth_upd_other by lia); reflexivity. }
  assert (HS : forall i, (i < 13)%nat -> (fst (SetSN id x)).[i] = id.[i]).
  { intros i Hi; unfold SetSN; destruct (x >? maxSN); simpl;
      [reflexivity|].
    repeat (rewrite nth_upd_other by lia); reflexivity. }
  unfold Time, Node, Nonce, SN.
  repeat split;
    first [ rewrite !HT by lia | rewrite !HN by lia
          | rewrite !HO by lia | rewrite !HS by lia ];
    reflexivity.
Qed.

(** ** Arithmetic of the bit operations *)

Ltac divmod := first [ lia | Z.div_mod_to_equations; lia ].

Lemma land_disjoint (a b n : Z) :
  0 <= n -> a mod 2 ^ n = 0 -> 0 <= b < 2 ^ n -> Z.land a b = 0.
Proof.
  intros Hn Ha Hb.
  apply Z.bits_inj'; intros i Hi.
  rewrite Z.land_spec, Z.bits_0.
  destruct (Z.lt_ge_cases i n) as [Hlt|Hge].
  - rewrite <- (Z.mod_pow2_bits_low a n i) by lia.
    rewrite Ha, Z.bits_0; reflexivity.
  - rewrite <- (Z.mod_small b (2 ^ n)) by lia.
    rewrite Z.mod_pow2_bits_high by lia.
    apply andb_false_r.
Qed.

(** A disjunction of a multiple of [2^n] and a number below [2^n] is
    their sum. *)
Lemma lor_add (a b n : Z) :
  0 <= n -> a mod 2 ^ n = 0 -> 0 <= b < 2 ^ n -> Z.lor a b = a + b.
Proof.
  intros Hn Ha Hb.
  rewrite <- (Z.add_lor_land a b), (land_disjoint a b n) by assumption.
  lia.
Qed.

Lemma lor_add_r (b a n : Z) :
  0 <= n -> a mod 2 ^ n = 0 -> 0 <= b < 2 ^ n -> Z.lor b a = b + a.
Proof.
  intros; rewrite Z.lor_comm, Z.add_comm; now apply (lor_add a b n).
Qed.

Ltac innermost_lor k :=
  match goal with
  | |- context [Z.lor ?a ?b] =>
      lazymatch a with
      | context [Z.lor _ _] => fail
      | _ => lazymatch b with
             | context [Z.lor _ _] => fail
             | _ => k a b
             end
      end
  end.

(** Turn the innermost [Z.lor] into a sum, its operands meeting at bit
    [n]. *)
Ltac lor_sum n :=
  innermost_lor ltac:(fun a b =>
    first [ rewrite (lor_add a b n) by divmod
          | rewrite (lor_add_r a b n) by divmod ]).

Lemma shl_byte (w b n : Z) :
  is_byte b -> 0 <= n -> n + 8 <= w ->
  Z.shiftl b n mod 2 ^ w = b * 2 ^ n.
Proof.
  unfold is_byte; intros Hb Hn Hw.
  rewrite Z.shiftl_mul_pow2 by lia.
  apply Z.mod_small.
  assert (0 < 2 ^ n) by (apply Z.pow_pos_nonneg; lia).
  assert (2 ^ (n + 8) <= 2 ^ w) by (apply Z.pow_le_mono_r; lia).
  rewrite Z.pow_add_r in * by lia.
  change (2 ^ 8) with 256 in *; nia.
Qed.

Lemma shl64_byte (b n : Z) :
  is_byte b -> 0 <= n <= 56 -> shl64 b n = b * 2 ^ n.
Proof. intros; apply shl_byte; auto; lia. Qed.

Lemma shl32_byte (b n : Z) :
  is_byte b -> 0 <= n <= 24 -> shl32 b n = b * 2 ^ n.
Proof. intros; apply shl_byte; auto; lia. Qed.

Lemma shl16_byte (b n : Z) :
  is_byte b -> 0 <= n <= 8 -> shl16 b n = b * 2 ^ n.
Proof. intros; apply shl_byte; auto; lia. Qed.

Lemma to_byte_is_byte (x : Z) : is_byte (to_byte x).
Proof. unfold is_byte, to_byte; change (2 ^ 8) with 256; divmod. Qed.

(** The byte of [x] that starts at bit [k]. *)
Lemma to_byte_shr (x k : Z) :
  0 <= k -> to_byte (shr x k) = x / 2 ^ k - 256 * (x / 2 ^ (k + 8)).
Proof.
  intros Hk; unfold to_byte, shr.
  rewrite Z.shiftr_div_pow2 by lia.
  rewrite Z.pow_add_r, <- Z.div_div by lia.
  change (2 ^ 8) with 256.
  rewrite Z.mod_eq by lia; lia.
Qed.

Lemma to_byte_low (x : Z) : to_byte x = x - 256 * (x / 2 ^ 8).
Proof.
  unfold to_byte; change (2 ^ 8) with 256; rewrite Z.mod_eq by lia; lia.
Qed.

(** ** Values of the fields *)

Lemma maxTime_value : maxTime = 2 ^ 48 - 1.
Proof. reflexivity. Qed.

Lemma MaxNonce_value : MaxNonce = 2 ^ 40 - 1.
Proof. reflexivity. Qed.

Lemma maxSN_value : maxSN = 2 ^ 24 - 1.
Proof. reflexivity. Qed.

Lemma Time_bytes (b0 b1 b2 b3 b4 b5 : Z) (r : list Z) :
  is_byte b0 -> is_byte b1 -> is_byte b2 ->
  is_byte b3 -> is_byte b4 -> is_byte b5 ->
  Time (b0 :: b1 :: b2 :: b3 :: b4 :: b5 :: r) =
  b0 * 2 ^ 40 + b1 * 2 ^ 32 + b2 * 2 ^ 24 + b3 * 2 ^ 16 + b4 * 2 ^ 8 + b5.
Proof.
  intros H0 H1 H2 H3 H4 H5.
  unfold Time; cbn [nth].
  rewrite !shl64_byte by (assumption || lia).
  unfold is_byte in *.
  lor_sum 8; lor_sum 16; lor_sum 24; lor_sum 32; lor_sum 40.
  lia.
Qed.

Lemma Node_bytes (a0 a1 a2 a3 a4 a5 b6 b7 : Z) (r : list Z) :
  is_byte b6 -> is_byte b7 ->
  Node (a0 :: a1 :: a2 :: a3 :: a4 :: a5 :: b6 :: b7 :: r) = b6 * 2 ^ 8 + b7.
Proof.
  intros H6 H7.
  unfold Node; cbn [nth].
  rewrite !shl16_byte by (assumption || lia).
  unfold is_byte in *.
  lor_sum 8; lia.
Qed.

Lemma Nonce_bytes (a0 a1 a2 a3 a4 a5 a6 a7 b8 b9 b10 b11 b12 : Z)
    (r : list Z) :
  is_byte b8 -> is_byte b9 -> is_byte b10 -> is_byte b11 -> is_byte b12 ->
  Nonce (a0 :: a1 :: a2 :: a3 :: a4 :: a5 :: a6 :: a7 ::
         b8 :: b9 :: b10 :: b11 :: b12 :: r) =
  b8 * 2 ^ 32 + b9 * 2 ^ 24 + b10 * 2 ^ 16 + b11 * 2 ^ 8 + b12.
Proof.
  intros H8 H9 H10 H11 H12.
  unfold Nonce; cbn [nth].
  rewrite !shl64_byte by (assumption || lia).
  unfold is_byte in *.
  lor_sum 32; lor_sum 24; lor_sum 16; lor_sum 8; lia.
Qed.

Lemma SN_bytes (a0 a1 a2 a3 a4 a5 a6 a7 a8 a9 a10 a11 a12 b13 b14 b15 : Z)
    (r : list Z) :
  is_byte b13 -> is_byte b14 -> is_byte b15 ->
  SN (a0 :: a1 :: a2 :: a3 :: a4 :: a5 :: a6 :: a7 :: a8 :: a9 :: a10 ::
      a11 :: a12 :: b13 :: b14 :: b15 :: r) =
  b13 * 2 ^ 16 + b14 * 2 ^ 8 + b15.
Proof.
  intros H3 H4 H5.
  unfold SN; cbn [nth].
  rewrite !shl32_byte by (assumption || lia).
  unfold is_byte in *.
  lor_sum 16; lor_sum 8; lia.
Qed.

Ltac explode16 id H :=
  unfold SFID_len in H;
  do 16 (destruct id as [|? id]; [discriminate H|]);
  destruct id; [clear H|discriminate H].

Lemma gtb_false (x y : Z) : x <= y -> (x >? y) = false.
Proof. intros; rewrite Z.gtb_ltb; apply Z.ltb_ge; assumption. Qed.

Lemma gtb_true (x y : Z) : y < x -> (x >? y) = true.
Proof. intros; rewrite Z.gtb_ltb; apply Z.ltb_lt; assumption. Qed.

Lemma Time_SetTime (id : SFID) (ms : Z) :
  length id = SFID_len -> 0 <= ms <= maxTime ->
  Time (fst (SetTime id ms)) = ms.
Proof.
  intros Hlen Hms; explode16 id Hlen.
  unfold SetTime; rewrite gtb_false by lia; cbn [upd fst].
  rewrite Time_bytes by apply to_byte_is_byte.
  rewrite !to_byte_shr, to_byte_low by lia.
  rewrite maxTime_value in Hms.
  assert (H48 : ms / 2 ^ 48 = 0) by (apply Z.div_small; lia).
  change (40 + 8) with 48; change (32 + 8) with 40; change (24 + 8) with 32;
    change (16 + 8) with 24; change (8 + 8) with 16.
  rewrite H48; lia.
Qed.

Lemma Node_SetNode (id : SFID) (n : Z) :
  length id = SFID_len -> 0 <= n < 2 ^ 16 -> Node (SetNode id n) = n.
Proof.
  intros Hlen Hn; explode16 id Hlen.
  unfold SetNode; cbn [upd].
  rewrite Node_bytes by apply to_byte_is_byte.
  rewrite !to_byte_shr, to_byte_low by lia.
  assert (H16 : n / 2 ^ 16 = 0) by (apply Z.div_small; lia).
  change (8 + 8) with 16; rewrite H16; lia.
Qed.

Lemma SN_SetSN (id : SFID) (n : Z) :
  length id = SFID_len -> 0 <= n <= maxSN -> SN (fst (SetSN id n)) = n.
Proof.
  intros Hlen Hn; explode16 id Hlen.
  unfold SetSN; rewrite gtb_false by lia; cbn [upd fst].
  rewrite SN_bytes by apply to_byte_is_byte.
  rewrite !to_byte_shr, to_byte_low by lia.
  rewrite maxSN_value in Hn.
  assert (H24 : n / 2 ^ 24 = 0) by (apply Z.div_small; lia).
  change (16 + 8) with 24; change (8 + 8) with 16; rewrite H24; lia.
Qed.

(** ** Range checks *)

(** C7: each range-checked operation reports its range error exactly when
    the value exceeds the field's width, and succeeds otherwise, so also at
    the maximum: [SetTime] against [2^48-1], [SetNonce] and
    [NewSnowflakePro] against [2^40-1], [SetSN] against [2^24-1].
    [SetNode] has no error to report, and stores every 16-bit value in
    full: [Node] reads it back. *)
Theorem range_checks (id : SFID) (x : Z) :
  ((snd (SetTime id x) = Some ErrBigTime <-> x > 2 ^ 48 - 1) /\
   (snd (SetTime id x) = None <-> x <= 2 ^ 48 - 1) /\
   snd (SetTime id (2 ^ 48 - 1)) = None) /\
  ((snd (SetNonce id x) = Some ErrBigNonce <-> x > 2 ^ 40 - 1) /\
   (snd (SetNonce id x) = None <-> x <= 2 ^ 40 - 1) /\
   snd (SetNonce id (2 ^ 40 - 1)) = None) /\
  ((snd (SetSN id x) = Some ErrBigSN <-> x > 2 ^ 24 - 1) /\
   (snd (SetSN id x) = None <-> x <= 2 ^ 24 - 1) /\
   snd (SetSN id (2 ^ 24 - 1)) = None) /\
  (forall nodeid,
     (NewSnowflakePro nodeid x = (None, Some ErrBigNonce) <-> x > 2 ^ 40 - 1) /\
     (NewSnowflakePro nodeid x =
        (Some {| sn := 0; node := nodeid; nonce := x; tms := 0 |}, None) <->
      x <= 2 ^ 40 - 1)) /\
  (length id = SFID_len -> 0 <= x < 2 ^ 16 -> Node (SetNode id x) = x).
Proof.
  rewrite <- maxTime_value, <- MaxNonce_value, <- maxSN_value.
  split; [|split; [|split; [|split]]].
  - unfold SetTime; rewrite (gtb_false maxTime maxTime) by lia.
    destruct (Z.gtb_spec x maxTime); simpl;
      repeat split; intros; try lia; try discriminate.
  - unfold SetNonce; rewrite (gtb_false MaxNonce MaxNonce) by lia.
    destruct (Z.gtb_spec x MaxNonce); simpl;
      repeat split; intros; try lia; try discriminate.
  - unfold SetSN; rewrite (gtb_false maxSN maxSN) by lia.
    destruct (Z.gtb_spec x maxSN); simpl;
      repeat split; intros; try lia; try discriminate.
  - intros nodeid; unfold NewSnowflakePro.
    destruct (Z.gtb_spec x MaxNonce);
      repeat split; intros; try lia; try discriminate; reflexivity.
  - apply Node_SetNode.
Qed.

(** ** Strings and their bytes *)

Lemma byte_of_ascii_is_byte (c : ascii) : is_byte (byte_of_ascii c).
Proof.
  unfold is_byte, byte_of_ascii.
  pose proof (N_ascii_bounded c); lia.
Qed.

Lemma ascii_of_byte_of_ascii (c : ascii) : ascii_of_byte (byte_of_ascii c) = c.
Proof.
  unfold ascii_of_byte, byte_of_ascii.
  rewrite N2Z.id; apply ascii_N_embedding.
Qed.

Lemma byte_of_ascii_of_byte (b : Z) :
  is_byte b -> byte_of_ascii (ascii_of_byte b) = b.
Proof.
  unfold is_byte, ascii_of_byte, byte_of_ascii; intros Hb.
  rewrite N_ascii_embedding by lia.
  apply Z2N.id; lia.
Qed.

Lemma bytes_of_string_length (s : string) :
  length (bytes_of_string s) = String.length s.
Proof.
  unfold bytes_of_string; rewrite length_map.
  induction s as [|c s IH]; simpl; congruence.
Qed.

Lemma bytes_of_string_bytes (s : string) : Forall is_byte (bytes_of_string s).
Proof.
  unfold bytes_of_string; apply Forall_forall; intros b Hb.
  apply in_map_iff in Hb as (c & <- & _); apply byte_of_ascii_is_byte.
Qed.

Lemma bytes_of_string_of_bytes (l : list Z) :
  Forall is_byte l -> bytes_of_string (string_of_bytes l) = l.
Proof.
  unfold bytes_of_string, string_of_bytes; intros Hl.
  rewrite list_ascii_of_string_of_list_ascii, map_map.
  induction Hl as [|b l Hb _ IH]; simpl; [reflexivity|].
  rewrite byte_of_ascii_of_byte, IH by assumption; reflexivity.
Qed.

(** ** Checking a property of every small number by evaluation *)

Lemma below_spec (P : Z -> bool) (n : nat) :
  forallb P (below n) = true ->
  forall x, 0 <= x < Z.of_nat n -> P x = true.
Proof.
  intros Hall x Hx.
  rewrite forallb_forall in Hall; apply Hall.
  unfold below; apply in_map_iff.
  exists (Z.to_nat x); split; [lia|].
  apply in_seq; lia.
Qed.

Ltac explode26 v H :=
  do 26 (destruct v as [|? v]; [discriminate H|]);
  destruct v; [clear H|discriminate H].

(** ** Outcomes of [Parse] *)

(** C6: [Parse] reports the size error exactly on the strings whose length
    is not 26; on a string of length 26 it reports the overflow error
    exactly when the first byte exceeds ['7'], and otherwise succeeds; it
    never reports the invalid-character error; ["8"] followed by any 25
    characters is an overflow. *)
Theorem Parse_outcomes (s : string) :
  (snd (Parse s) = Some ErrDataSize <-> String.length s <> 26%nat) /\
  (String.length s = 26%nat ->
   (snd (Parse s) = Some ErrOverflow <->
    (bytes_of_string s).[0] > byte_of_ascii "7")) /\
  (String.length s = 26%nat ->
   (bytes_of_string s).[0] <= byte_of_ascii "7" ->
   snd (Parse s) = None) /\
  snd (Parse s) <> Some ErrInvalidCharacters /\
  (forall t, String.length t = 25%nat ->
             snd (Parse (String "8" t)) = Some ErrOverflow).
Proof.
  assert (Hgen : forall u,
    (String.length u <> 26%nat /\ snd (Parse u) = Some ErrDataSize) \/
    (String.length u = 26%nat /\ (bytes_of_string u).[0] > byte_of_ascii "7" /\
     snd (Parse u) = Some ErrOverflow) \/
    (String.length u = 26%nat /\ (bytes_of_string u).[0] <= byte_of_ascii "7" /\
     snd (Parse u) = None)).
  { intros u; unfold Parse, parse.
    rewrite bytes_of_string_length; unfold EncodedSize.
    destruct (Nat.eqb_spec (String.length u) 26) as [Hlen|Hlen]; simpl negb; cbv iota.
    - right. rewrite andb_false_l.
      destruct (Z.gtb_spec (bytes_of_string u).[0] (byte_of_ascii "7")).
      + left; repeat split; auto; lia.
      + right; repeat split; auto.
    - left; split; auto. }
  pose proof (Hgen s) as Hs.
  split; [|split; [|split; [|split]]].
  - split; intros H.
    + destruct Hs as [[? _]|[(? & ? & E)|(? & ? & E)]];
        auto; rewrite E in H; discriminate.
    + destruct Hs as [[? E]|[(? & ? & E)|(? & ? & E)]];
        auto; contradiction.
  - intros Hlen; split; intros H.
    + destruct Hs as [[? E]|[(? & ? & E)|(? & ? & E)]];
        auto; try contradiction; rewrite E in H; discriminate.
    + destruct Hs as [[? E]|[(? & ? & E)|(? & ? & E)]];
        auto; try contradiction; lia.
  - intros Hlen Hle.
    destruct Hs as [[? E]|[(? & ? & E)|(? & ? & E)]];
      auto; try contradiction; lia.
  - destruct Hs as [[? E]|[(? & ? & E)|(? & ? & E)]];
      rewrite E; discriminate.
  - intros t Ht.
    destruct (Hgen (String "8" t)) as [[Hl E]|[(? & ? & E)|(? & Hf & E)]]; auto.
    + simpl in Hl; lia.
    + exfalso; revert Hf; unfold bytes_of_string; simpl.
      vm_compute; intros Hf; apply Hf; reflexivity.
Qed.

(** ** Strict parsing *)

Lemma dec_sentinel (c : Z) :
  is_byte c -> (dec c =? 0xFF) = negb (in_symbols decodable c).
Proof.
  intros Hc; apply Bool.eqb_prop.
  apply (below_spec
           (fun c => Bool.eqb (dec c =? 0xFF) (negb (in_symbols decodable c)))
           256); [vm_compute; reflexivity|exact Hc].
Qed.

Lemma strict_check (v : list Z) :
  length v = 26%nat ->
  (dec v.[0] =? 0xFF) || (dec v.[1] =? 0xFF) || (dec v.[2] =? 0xFF) ||
  (dec v.[3] =? 0xFF) || (dec v.[4] =? 0xFF) || (dec v.[5] =? 0xFF) ||
  (dec v.[6] =? 0xFF) || (dec v.[7] =? 0xFF) || (dec v.[8] =? 0xFF) ||
  (dec v.[9] =? 0xFF) || (dec v.[10] =? 0xFF) || (dec v.[11] =? 0xFF) ||
  (dec v.[12] =? 0xFF) || (dec v.[13] =? 0xFF) || (dec v.[14] =? 0xFF) ||
  (dec v.[15] =? 0xFF) || (dec v.[16] =? 0xFF) || (dec v.[17] =? 0xFF) ||
  (dec v.[18] =? 0xFF) || (dec v.[19] =? 0xFF) || (dec v.[20] =? 0xFF) ||
  (dec v.[21] =? 0xFF) || (dec v.[22] =? 0xFF) || (dec v.[23] =? 0xFF) ||
  (dec v.[24] =? 0xFF) || (dec v.[25] =? 0xFF) =
  existsb (fun c => dec c =? 0xFF) v.
Proof.
  intros Hlen; explode26 v Hlen.
  cbn [nth existsb].
  rewrite orb_false_r, !orb_assoc; reflexivity.
Qed.

Lemma ParseStrict_invalid (s : string) :
  String.length s = 26%nat ->
  (snd (ParseStrict s) = Some ErrInvalidCharacters <->
   exists c, In c (bytes_of_string s) /\ dec c = 0xFF).
Proof.
  intros Hlen; unfold ParseStrict, parse.
  rewrite strict_check by (rewrite bytes_of_string_length; exact Hlen).
  rewrite bytes_of_string_length, Hlen.
  change (negb (26 =? EncodedSize)%nat) with false; cbv iota.
  rewrite andb_true_l.
  destruct (existsb (fun c => dec c =? 0xFF) (bytes_of_string s)) eqn:E.
  - split; [intros _|reflexivity].
    apply existsb_exists in E as (c & Hin & Hc).
    exists c; split; [assumption|apply Z.eqb_eq; assumption].
  - split.
    + destruct ((bytes_of_string s).[0] >? byte_of_ascii "7"); discriminate.
    + intros (c & Hin & Hc).
      assert (E' : existsb (fun c => dec c =? 0xFF) (bytes_of_string s) = true).
      { apply existsb_exists; exists c; split; [assumption|].
        apply Z.eqb_eq; assumption. }
      congruence.
Qed.

(** C4, as the code has it: on a string of 26 characters whose first
    character does not exceed ['7'], [ParseStrict] reports the
    invalid-character error exactly when one of the characters is neither a
    symbol of the alphabet nor the lowercase form of one of its letters. *)
Theorem ParseStrict_invalid_characters (s : string) :
  String.length s = 26%nat ->
  (bytes_of_string s).[0] <= byte_of_ascii "7" ->
  (snd (ParseStrict s) = Some ErrInvalidCharacters <->
   exists c, In c (bytes_of_string s) /\ in_symbols decodable c = false).
Proof.
  intros Hlen _.
  rewrite ParseStrict_invalid by exact Hlen.
  pose proof (bytes_of_string_bytes s) as Hb.
  rewrite Forall_forall in Hb.
  split; intros (c & Hin & Hc); exists c; (split; [assumption|]).
  - pose proof (dec_sentinel c (Hb c Hin)) as E.
    rewrite Hc in E; simpl in E.
    destruct (in_symbols decodable c); [discriminate|reflexivity].
  - pose proof (dec_sentinel c (Hb c Hin)) as E.
    rewrite Hc in E; simpl in E.
    apply Z.eqb_eq; exact E.
Qed.

Lemma ParseStrict_invalid_characters_witness :
  snd (ParseStrict "01AN4Z07BY79KA1307SR9X4MV!") = Some ErrInvalidCharacters <->
  exists c, In c (bytes_of_string "01AN4Z07BY79KA1307SR9X4MV!") /\
            in_symbols decodable c = false.
Proof.
  apply (ParseStrict_invalid_characters "01AN4Z07BY79KA1307SR9X4MV!").
  - reflexivity.
  - vm_compute; discriminate.
Defined.

(** C4, as stated, fails on a lowercase letter: ["a"] is not one of the 32
    symbols of [Encoding], the text has 26 characters and starts with
    ["0"], and [ParseStrict] decodes it without an error. *)
Lemma ParseStrict_accepts_lowercase :
  String.length lowercase_text = 26%nat /\
  (bytes_of_string lowercase_text).[0] <= byte_of_ascii "7" /\
  In (byte_of_ascii "a") (bytes_of_string lowercase_text) /\
  in_symbols Encoding (byte_of_ascii "a") = false /\
  ParseStrict lowercase_text =
    ([0; 0; 0; 0; 0; 0; 0; 0; 0; 0; 0; 0; 0; 0; 0; 10], None).
Proof.
  split; [reflexivity|].
  split; [vm_compute; discriminate|].
  split; [vm_compute; tauto|].
  split; reflexivity.
Qed.

(** ** The text encoding, digit by digit *)

Lemma below_spec2 (P : Z -> Z -> bool) (n m : nat) :
  forallb (fun x => forallb (P x) (below m)) (below n) = true ->
  forall x y, 0 <= x < Z.of_nat n -> 0 <= y < Z.of_nat m -> P x y = true.
Proof.
  intros Hall x y Hx Hy.
  apply (below_spec (P x) m); [|exact Hy].
  apply (below_spec (fun x => forallb (P x) (below m)) n Hall x Hx).
Qed.

Lemma below_spec3 (P : Z -> Z -> Z -> bool) (n m p : nat) :
  forallb (fun x => forallb (fun y => forallb (P x y) (below p)) (below m))
          (below n) = true ->
  forall x y z, 0 <= x < Z.of_nat n -> 0 <= y < Z.of_nat m ->
                0 <= z < Z.of_nat p -> P x y z = true.
Proof.
  intros Hall x y z Hx Hy Hz.
  apply (below_spec2 (P x) m p); [|exact Hy|exact Hz].
  apply (below_spec (fun x => forallb (fun y => forallb (P x y) (below p))
                                      (below m)) n Hall x Hx).
Qed.

(** An equation between two functions of one, two or three small numbers,
    settled by evaluating both sides everywhere. *)
Ltac by_cases1 f g n Ha :=
  apply Z.eqb_eq;
  apply (below_spec (fun a => f a =? g a) n);
  [vm_compute; reflexivity|exact Ha].

Ltac by_cases2 f g n m Ha Hb :=
  apply Z.eqb_eq;
  apply (below_spec2 (fun a b => f a b =? g a b) n m);
  [vm_compute; reflexivity|exact Ha|exact Hb].

Ltac by_cases3 f g n m p Ha Hb Hc :=
  apply Z.eqb_eq;
  apply (below_spec3 (fun a b c => f a b c =? g a b c) n m p);
  [vm_compute; reflexivity|exact Ha|exact Hb|exact Hc].

Lemma sym_hi3 (a : Z) : is_byte a -> shr (Z.land a 224) 5 = a / 32.
Proof.
  intros Ha.
  by_cases1 (fun a => shr (Z.land a 224) 5) (fun a => a / 32) 256%nat Ha.
Qed.

Lemma sym_lo5 (a : Z) : is_byte a -> Z.land a 31 = a mod 32.
Proof.
  intros Ha.
  by_cases1 (fun a => Z.land a 31) (fun a => a mod 32) 256%nat Ha.
Qed.

Lemma sym_hi5 (a : Z) : is_byte a -> shr (Z.land a 248) 3 = a / 8.
Proof.
  intros Ha.
  by_cases1 (fun a => shr (Z.land a 248) 3) (fun a => a / 8) 256%nat Ha.
Qed.

Lemma sym_3_2 (a b : Z) :
  is_byte a -> is_byte b ->
  Z.lor (shl8 (Z.land a 7) 2) (shr (Z.land b 192) 6) = (a mod 8) * 4 + b / 64.
Proof.
  intros Ha Hb.
  by_cases2 (fun a b => Z.lor (shl8 (Z.land a 7) 2) (shr (Z.land b 192) 6))
            (fun a b => (a mod 8) * 4 + b / 64) 256%nat 256%nat Ha Hb.
Qed.

Lemma sym_mid1 (a : Z) : is_byte a -> shr (Z.land a 62) 1 = (a mod 64) / 2.
Proof.
  intros Ha.
  by_cases1 (fun a => shr (Z.land a 62) 1) (fun a => (a mod 64) / 2) 256%nat Ha.
Qed.

Lemma sym_1_4 (a b : Z) :
  is_byte a -> is_byte b ->
  Z.lor (shl8 (Z.land a 1) 4) (shr (Z.land b 240) 4) = (a mod 2) * 16 + b / 16.
Proof.
  intros Ha Hb.
  by_cases2 (fun a b => Z.lor (shl8 (Z.land a 1) 4) (shr (Z.land b 240) 4))
            (fun a b => (a mod 2) * 16 + b / 16) 256%nat 256%nat Ha Hb.
Qed.

Lemma sym_4_1 (a b : Z) :
  is_byte a -> is_byte b ->
  Z.lor (shl8 (Z.land a 15) 1) (shr (Z.land b 128) 7) = (a mod 16) * 2 + b / 128.
Proof.
  intros Ha Hb.
  by_cases2 (fun a b => Z.lor (shl8 (Z.land a 15) 1) (shr (Z.land b 128) 7))
            (fun a b => (a mod 16) * 2 + b / 128) 256%nat 256%nat Ha Hb.
Qed.

Lemma sym_mid2 (a : Z) : is_byte a -> shr (Z.land a 124) 2 = (a mod 128) / 4.
Proof.
  intros Ha.
  by_cases1 (fun a => shr (Z.land a 124) 2) (fun a => (a mod 128) / 4) 256%nat Ha.
Qed.

Lemma sym_2_3 (a b : Z) :
  is_byte a -> is_byte b ->
  Z.lor (shl8 (Z.land a 3) 3) (shr (Z.land b 224) 5) = (a mod 4) * 8 + b / 32.
Proof.
  intros Ha Hb.
  by_cases2 (fun a b => Z.lor (shl8 (Z.land a 3) 3) (shr (Z.land b 224) 5))
            (fun a b => (a mod 4) * 8 + b / 32) 256%nat 256%nat Ha Hb.
Qed.

Ltac wf16 id H :=
  let Hlen := fresh "Hlen" in
  let Hall := fresh "Hall" in
  destruct H as [Hlen Hall];
  explode16 id Hlen;
  repeat match goal with
         | Hf : Forall _ (_ :: _) |- _ => inversion_clear Hf
         | Hf : Forall _ [] |- _ => clear Hf
         end.

Lemma digits_by_division (id : SFID) :
  wf_SFID id ->
  digits id =
  head_digits id.[0] ++
  group_digits id.[1] id.[2] id.[3] id.[4] id.[5] ++
  group_digits id.[6] id.[7] id.[8] id.[9] id.[10] ++
  group_digits id.[11] id.[12] id.[13] id.[14] id.[15].
Proof.
  intros Hwf; wf16 id Hwf.
  unfold digits, head_digits, group_digits; cbn [nth app].
  rewrite !sym_3_2, !sym_1_4, !sym_4_1, !sym_2_3 by assumption.
  rewrite !sym_hi3, !sym_lo5, !sym_hi5, !sym_mid1, !sym_mid2 by assumption.
  reflexivity.
Qed.

Lemma head_digits_range (a : Z) :
  is_byte a -> Forall is_digit (head_digits a) /\ (head_digits a).[0] < 8.
Proof.
  unfold is_byte, is_digit, head_digits; intros Ha; cbn [nth].
  split; [repeat constructor|]; divmod.
Qed.

Lemma group_digits_range (a b c d e : Z) :
  is_byte a -> is_byte b -> is_byte c -> is_byte d -> is_byte e ->
  Forall is_digit (group_digits a b c d e).
Proof.
  unfold is_byte, is_digit, group_digits; intros Ha Hb Hc Hd He.
  repeat constructor; divmod.
Qed.

Lemma digits_range (id : SFID) :
  wf_SFID id -> Forall is_digit (digits id) /\ (digits id).[0] < 8.
Proof.
  intros Hwf; rewrite digits_by_division by assumption.
  wf16 id Hwf; cbn [nth].
  split.
  - repeat (apply Forall_app; split);
      first [apply head_digits_range | apply group_digits_range]; assumption.
  - apply (head_digits_range z); assumption.
Qed.

Lemma digits_length (id : SFID) : length (digits id) = 26%nat.
Proof. reflexivity. Qed.

Lemma MarshalTextTo_digits (id : SFID) (dst : list Z) :
  length dst = EncodedSize ->
  MarshalTextTo id dst = (map Encoding_at (digits id), None).
Proof.
  unfold EncodedSize; intros Hlen; unfold MarshalTextTo.
  rewrite Hlen; change (negb (26 =? EncodedSize)%nat) with false; cbv iota.
  explode26 dst Hlen.
  reflexivity.
Qed.

(** ** Decoding the digits *)

Lemma dec_Encoding (d : Z) : is_digit d -> dec (Encoding_at d) = d.
Proof.
  intros Hd.
  by_cases1 (fun d => dec (Encoding_at d)) (fun d : Z => d) 32%nat Hd.
Qed.

Lemma Encoding_at_is_byte (d : Z) : is_digit d -> is_byte (Encoding_at d).
Proof.
  intros Hd.
  assert (H : (0 <=? Encoding_at d) && (Encoding_at d <? 256) = true).
  { apply (below_spec
             (fun d => (0 <=? Encoding_at d) && (Encoding_at d <? 256)) 32);
      [vm_compute; reflexivity|exact Hd]. }
  apply andb_true_iff in H as [H1 H2]; unfold is_byte; lia.
Qed.

Lemma Encoding_at_first (d : Z) :
  0 <= d < 8 -> Encoding_at d <= byte_of_ascii "7".
Proof.
  intros Hd; apply Z.leb_le.
  apply (below_spec (fun d => Encoding_at d <=? byte_of_ascii "7") 8);
    [vm_compute; reflexivity|exact Hd].
Qed.

(** The alphabet is in increasing order. *)
Lemma Encoding_at_increasing (x y : Z) :
  is_digit x -> is_digit y -> (Encoding_at x <? Encoding_at y) = (x <? y).
Proof.
  intros Hx Hy; apply Bool.eqb_prop.
  apply (below_spec2
           (fun x y => Bool.eqb (Encoding_at x <? Encoding_at y) (x <? y))
           32 32); [vm_compute; reflexivity|exact Hx|exact Hy].
Qed.

Lemma map_dec_Encoding (ds : list Z) :
  Forall is_digit ds -> map dec (map Encoding_at ds) = ds.
Proof.
  induction 1 as [|d ds Hd _ IH]; simpl; [reflexivity|].
  rewrite dec_Encoding, IH by assumption; reflexivity.
Qed.

Lemma parse_assemble (v : list Z) (strict : bool) (id : SFID) :
  length v = EncodedSize -> length id = SFID_len ->
  v.[0] <= byte_of_ascii "7" ->
  (strict = true -> Forall (fun c => dec c <> 0xFF) v) ->
  parse v strict id = (assemble (map dec v), None).
Proof.
  unfold EncodedSize; intros Hv Hid Hfirst Hstrict.
  unfold parse; rewrite strict_check by exact Hv.
  rewrite Hv; change (negb (26 =? EncodedSize)%nat) with false; cbv iota.
  assert (E : strict && existsb (fun c => dec c =? 0xFF) v = false).
  { destruct strict; [|reflexivity].
    rewrite andb_true_l.
    destruct (existsb (fun c => dec c =? 0xFF) v) eqn:E; [|reflexivity].
    apply existsb_exists in E as (c & Hin & Hc).
    specialize (Hstrict eq_refl); rewrite Forall_forall in Hstrict.
    apply Z.eqb_eq in Hc; destruct (Hstrict c Hin Hc). }
  rewrite E, gtb_false by exact Hfirst.
  explode26 v Hv; explode16 id Hid.
  reflexivity.
Qed.

Lemma asm_a (x y : Z) :
  is_digit x -> is_digit y -> Z.lor (shl8 x 5) y = (x mod 8) * 32 + y.
Proof.
  intros Hx Hy.
  by_cases2 (fun x y => Z.lor (shl8 x 5) y)
            (fun x y => (x mod 8) * 32 + y) 32%nat 32%nat Hx Hy.
Qed.

Lemma asm_b (x y : Z) :
  is_digit x -> is_digit y -> Z.lor (shl8 x 3) (shr y 2) = x * 8 + y / 4.
Proof.
  intros Hx Hy.
  by_cases2 (fun x y => Z.lor (shl8 x 3) (shr y 2))
            (fun x y => x * 8 + y / 4) 32%nat 32%nat Hx Hy.
Qed.

Lemma asm_c (x y z : Z) :
  is_digit x -> is_digit y -> is_digit z ->
  Z.lor (Z.lor (shl8 x 6) (shl8 y 1)) (shr z 4) =
  (x mod 4) * 64 + y * 2 + z / 16.
Proof.
  intros Hx Hy Hz.
  by_cases3 (fun x y z => Z.lor (Z.lor (shl8 x 6) (shl8 y 1)) (shr z 4))
            (fun x y z => (x mod 4) * 64 + y * 2 + z / 16)
            32%nat 32%nat 32%nat Hx Hy Hz.
Qed.

Lemma asm_d (x y : Z) :
  is_digit x -> is_digit y ->
  Z.lor (shl8 x 4) (shr y 1) = (x mod 16) * 16 + y / 2.
Proof.
  intros Hx Hy.
  by_cases2 (fun x y => Z.lor (shl8 x 4) (shr y 1))
            (fun x y => (x mod 16) * 16 + y / 2) 32%nat 32%nat Hx Hy.
Qed.

Lemma asm_e (x y z : Z) :
  is_digit x -> is_digit y -> is_digit z ->
  Z.lor (Z.lor (shl8 x 7) (shl8 y 2)) (shr z 3) =
  (x mod 2) * 128 + y * 4 + z / 8.
Proof.
  intros Hx Hy Hz.
  by_cases3 (fun x y z => Z.lor (Z.lor (shl8 x 7) (shl8 y 2)) (shr z 3))
            (fun x y z => (x mod 2) * 128 + y * 4 + z / 8)
            32%nat 32%nat 32%nat Hx Hy Hz.
Qed.

Lemma assemble_digits (id : SFID) : wf_SFID id -> assemble (digits id) = id.
Proof.
  intros Hwf; rewrite digits_by_division by exact Hwf.
  wf16 id Hwf; unfold is_byte in *.
  unfold assemble, head_digits, group_digits; cbn [nth app].
  rewrite !asm_a, !asm_b, !asm_c, !asm_d, !asm_e by (unfold is_digit; divmod).
  repeat (apply (f_equal2 cons); [divmod|]); reflexivity.
Qed.

(** ** Round trips *)

Lemma text_bytes (x : SFID) :
  wf_SFID x -> Forall is_byte (map Encoding_at (digits x)).
Proof.
  intros Hwf; apply Forall_forall; intros c Hc.
  apply in_map_iff in Hc as (d & <- & Hd).
  apply Encoding_at_is_byte.
  destruct (digits_range x Hwf) as [Hall _].
  rewrite Forall_forall in Hall; auto.
Qed.

Lemma bytes_of_String (x : SFID) :
  wf_SFID x -> bytes_of_string (String_ x) = map Encoding_at (digits x).
Proof.
  intros Hwf; unfold String_.
  rewrite MarshalTextTo_digits by reflexivity.
  apply bytes_of_string_of_bytes, text_bytes, Hwf.
Qed.

Lemma parse_text (x id : SFID) (strict : bool) :
  wf_SFID x -> length id = SFID_len ->
  parse (map Encoding_at (digits x)) strict id = (x, None).
Proof.
  intros Hwf Hid.
  destruct (digits_range x Hwf) as [Hall Hfirst].
  assert (H0 : 0 <= (digits x).[0]).
  { unfold digits in *; cbn [nth] in *.
    inversion_clear Hall as [|? ? Hd _]; apply Hd. }
  rewrite parse_assemble.
  - rewrite map_dec_Encoding by exact Hall.
    rewrite assemble_digits by exact Hwf; reflexivity.
  - rewrite length_map; reflexivity.
  - exact Hid.
  - change ((map Encoding_at (digits x)).[0])
      with (Encoding_at (digits x).[0]).
    apply Encoding_at_first; lia.
  - intros _; apply Forall_forall; intros c Hc.
    apply in_map_iff in Hc as (d & <- & Hd).
    rewrite Forall_forall in Hall; specialize (Hall d Hd).
    rewrite dec_Encoding by exact Hall.
    unfold is_digit in Hall; lia.
Qed.

Lemma MarshalBinary_bytes (x : SFID) :
  length x = SFID_len -> MarshalBinary x = (x, None).
Proof.
  intros Hlen; unfold MarshalBinary, MarshalBinaryTo.
  rewrite repeat_length, Nat.eqb_refl; simpl negb; cbv iota.
  rewrite copy_all by (rewrite repeat_length; symmetry; exact Hlen).
  reflexivity.
Qed.

Lemma UnmarshalBinary_bytes (dst data : SFID) :
  length dst = SFID_len -> length data = SFID_len ->
  UnmarshalBinary dst data = (data, None).
Proof.
  intros Hdst Hdata; unfold UnmarshalBinary.
  rewrite Hdata, Nat.eqb_refl; simpl negb; cbv iota.
  rewrite copy_all by congruence; reflexivity.
Qed.

(** C1: for every 16-byte identifier [x], the binary encoding is [x]
    itself and [UnmarshalBinary] of it gives [x] back; the text encoding
    has 26 characters and [Parse], [ParseStrict] and [UnmarshalText] of it
    give [x] back without an error, so none of the size, overflow and
    invalid-character failures occurs. *)
Theorem roundtrip (x : SFID) :
  wf_SFID x ->
  (MarshalBinary x = (x, None) /\
   forall dst, length dst = SFID_len ->
               UnmarshalBinary dst (fst (MarshalBinary x)) = (x, None)) /\
  (String.length (String_ x) = 26%nat /\
   Parse (String_ x) = (x, None) /\
   ParseStrict (String_ x) = (x, None) /\
   snd (MarshalText x) = None /\
   String_ x = string_of_bytes (fst (MarshalText x)) /\
   forall dst, length dst = SFID_len ->
               UnmarshalText dst (fst (MarshalText x)) = (x, None)).
Proof.
  intros Hwf; pose proof Hwf as [Hlen _].
  split; [split|split; [|split; [|split; [|split; [|split]]]]].
  - apply MarshalBinary_bytes, Hlen.
  - intros dst Hdst; rewrite MarshalBinary_bytes by exact Hlen.
    apply UnmarshalBinary_bytes; assumption.
  - rewrite <- bytes_of_string_length, bytes_of_String by exact Hwf.
    rewrite length_map; reflexivity.
  - unfold Parse; rewrite bytes_of_String by exact Hwf.
    apply parse_text; [exact Hwf|reflexivity].
  - unfold ParseStrict; rewrite bytes_of_String by exact Hwf.
    apply parse_text; [exact Hwf|reflexivity].
  - unfold MarshalText; rewrite MarshalTextTo_digits by reflexivity.
    reflexivity.
  - reflexivity.
  - intros dst Hdst; unfold MarshalText, UnmarshalText.
    rewrite MarshalTextTo_digits by reflexivity.
    apply parse_text; assumption.
Qed.

Lemma roundtrip_witness :
  Parse (String_ [1; 139; 207; 229; 104; 0; 0; 100; 0; 7; 91; 205; 21; 0; 0; 255]) =
  ([1; 139; 207; 229; 104; 0; 0; 100; 0; 7; 91; 205; 21; 0; 0; 255], None).
Proof.
  refine (proj1 (proj2 (proj2
    (roundtrip [1; 139; 207; 229; 104; 0; 0; 100; 0; 7; 91; 205; 21; 0; 0; 255]
               _)))).
  split; [reflexivity|].
  repeat (apply Forall_cons; [unfold is_byte; lia|]); apply Forall_nil.
Defined.

(** ** Ordering *)

Lemma big_endian_bound (base : Z) (l : list Z) :
  0 < base -> Forall (fun d => 0 <= d < base) l ->
  0 <= big_endian base l < base ^ Z.of_nat (length l).
Proof.
  intros Hbase Hl; induction Hl as [|d t Hd _ IH].
  - simpl; lia.
  - cbn [big_endian length]; rewrite Nat2Z.inj_succ, Z.pow_succ_r by lia.
    assert (0 < base ^ Z.of_nat (length t)) by (apply Z.pow_pos_nonneg; lia).
    nia.
Qed.

Lemma cmp_values (x : Z) : cmp x x = 0.
Proof. unfold cmp; rewrite Z.compare_refl; reflexivity. Qed.

Lemma cmp_lt (x y : Z) : x < y -> cmp x y = -1.
Proof. unfold cmp; intros H; rewrite (proj2 (Z.compare_lt_iff x y) H); reflexivity. Qed.

Lemma cmp_gt (x y : Z) : y < x -> cmp x y = 1.
Proof. unfold cmp; intros H; rewrite (proj2 (Z.compare_gt_iff x y) H); reflexivity. Qed.

Lemma cmp_shift (k x y : Z) : cmp (k + x) (k + y) = cmp x y.
Proof. unfold cmp; rewrite Z.add_compare_mono_l; reflexivity. Qed.

(** Lexicographic comparison of two digit sequences of one length is the
    comparison of the numbers they denote. *)
Lemma bytes_Compare_big_endian (base : Z) (a b : list Z) :
  0 < base -> length a = length b ->
  Forall (fun d => 0 <= d < base) a -> Forall (fun d => 0 <= d < base) b ->
  bytes_Compare a b = cmp (big_endian base a) (big_endian base b).
Proof.
  intros Hbase; revert b; induction a as [|x a IH]; intros [|y b] Hlen Ha Hb;
    try discriminate Hlen.
  - reflexivity.
  - injection Hlen as Hlen.
    inversion_clear Ha as [|? ? Hx Ha']; inversion_clear Hb as [|? ? Hy Hb'].
    cbn [bytes_Compare big_endian]; rewrite <- Hlen.
    pose proof (big_endian_bound base a Hbase Ha') as Ba.
    pose proof (big_endian_bound base b Hbase Hb') as Bb.
    rewrite <- Hlen in Bb.
    set (w := base ^ Z.of_nat (length a)) in *.
    destruct (Z.ltb_spec x y) as [Hxy|Hxy].
    + symmetry; apply cmp_lt; nia.
    + destruct (Z.ltb_spec y x) as [Hyx|Hyx].
      * symmetry; apply cmp_gt; nia.
      * assert (x = y) by lia; subst y.
        rewrite cmp_shift; apply IH; assumption.
Qed.

Lemma bytes_Compare_Encoding (a b : list Z) :
  Forall is_digit a -> Forall is_digit b ->
  bytes_Compare (map Encoding_at a) (map Encoding_at b) = bytes_Compare a b.
Proof.
  intros Ha; revert b; induction Ha as [|x a Hx _ IH]; intros b Hb;
    destruct Hb as [|y b Hy Hb]; try reflexivity.
  cbn [map bytes_Compare].
  rewrite !Encoding_at_increasing, IH by assumption; reflexivity.
Qed.

Lemma head_value (a : Z) : a / 32 * 32 + a mod 32 = a.
Proof. divmod. Qed.

Lemma group_value (a b c d e : Z) :
  is_byte a -> is_byte b -> is_byte c -> is_byte d -> is_byte e ->
  big_endian 32 (group_digits a b c d e) = big_endian 256 [a; b; c; d; e].
Proof.
  unfold is_byte, group_digits; intros Ha Hb Hc Hd He.
  cbn [big_endian length].
  change (Z.of_nat 0) with 0; change (Z.of_nat 1) with 1;
    change (Z.of_nat 2) with 2; change (Z.of_nat 3) with 3;
    change (Z.of_nat 4) with 4; change (Z.of_nat 5) with 5;
    change (Z.of_nat 6) with 6; change (Z.of_nat 7) with 7.
  divmod.
Qed.

Lemma big_endian_app (base : Z) (l r : list Z) :
  big_endian base (l ++ r) =
  big_endian base l * base ^ Z.of_nat (length r) + big_endian base r.
Proof.
  induction l as [|d l IH]; cbn [app big_endian]; [lia|].
  rewrite IH, length_app, Nat2Z.inj_add, Z.pow_add_r by lia; ring.
Qed.

(** The 26 digits denote in base 32 the number the 16 bytes denote in base
    256. *)
Lemma digits_value (id : SFID) :
  wf_SFID id -> big_endian 32 (digits id) = big_endian 256 id.
Proof.
  intros Hwf; rewrite digits_by_division by exact Hwf.
  wf16 id Hwf; cbn [nth].
  change [z; z0; z1; z2; z3; z4; z5; z6; z7; z8; z9; z10; z11; z12; z13; z14]
    with ([z] ++ [z0; z1; z2; z3; z4] ++ [z5; z6; z7; z8; z9] ++
          [z10; z11; z12; z13; z14]).
  rewrite !big_endian_app, !group_value by assumption.
  replace (big_endian 32 (head_digits z)) with z
    by (unfold head_digits; cbn [big_endian length];
        change (Z.of_nat 1) with 1; change (Z.of_nat 0) with 0;
        pose proof (head_value z); lia).
  cbn [length group_digits].
  replace (big_endian 256 [z]) with z by (cbn [big_endian length]; simpl; lia).
  change (32 ^ Z.of_nat 8) with (256 ^ Z.of_nat 5); reflexivity.
Qed.

Lemma Compare_value (a b : SFID) :
  wf_SFID a -> wf_SFID b ->
  Compare a b = cmp (big_endian 256 a) (big_endian 256 b).
Proof.
  intros [La Ba] [Lb Bb]; unfold Compare.
  apply bytes_Compare_big_endian; [lia|congruence|exact Ba|exact Bb].
Qed.

Lemma cmp_three (x y : Z) : cmp x y = -1 \/ cmp x y = 0 \/ cmp x y = 1.
Proof. unfold cmp; destruct (x ?= y); auto. Qed.

(** C3: for all identifiers [a] and [b], [Compare a b] is the comparison of
    the two unsigned big-endian 128-bit values, it is -1, 0 or +1, and the
    byte-wise comparison of the two 26-character text encodings returns
    the same result (so the same sign). *)
Theorem Compare_matches_text (a b : SFID) :
  wf_SFID a -> wf_SFID b ->
  Compare a b = cmp (big_endian 256 a) (big_endian 256 b) /\
  (Compare a b = -1 \/ Compare a b = 0 \/ Compare a b = 1) /\
  strings_Compare (String_ a) (String_ b) = Compare a b.
Proof.
  intros Ha Hb.
  pose proof (Compare_value a b Ha Hb) as Hv.
  split; [exact Hv|split].
  - rewrite Hv; apply cmp_three.
  - unfold strings_Compare; rewrite !bytes_of_String by assumption.
    destruct (digits_range a Ha) as [Da _], (digits_range b Hb) as [Db _].
    rewrite bytes_Compare_Encoding by assumption.
    rewrite (bytes_Compare_big_endian 32)
      by (try lia; try reflexivity; assumption).
    rewrite !digits_value by assumption.
    symmetry; exact Hv.
Qed.

Lemma Compare_matches_text_witness :
  strings_Compare
    (String_ [1; 139; 207; 229; 104; 0; 0; 100; 0; 7; 91; 205; 21; 0; 0; 255])
    (String_ [1; 139; 207; 229; 104; 1; 0; 100; 0; 7; 91; 205; 21; 0; 0; 0]) =
  Compare [1; 139; 207; 229; 104; 0; 0; 100; 0; 7; 91; 205; 21; 0; 0; 255]
          [1; 139; 207; 229; 104; 1; 0; 100; 0; 7; 91; 205; 21; 0; 0; 0].
Proof.
  refine (proj2 (proj2 (Compare_matches_text _ _ _ _)));
    (split; [reflexivity|]);
    repeat (apply Forall_cons; [unfold is_byte; lia|]); apply Forall_nil.
Defined.

(** ** Scanning a database value *)

(** C9, as the code has it: [Scan] reports the unsupported-source error
    for every source that is neither nil, nor a string, nor a byte slice;
    a nil source is accepted and leaves the identifier as it was; a string
    is decoded as the text form (26 characters, any other length is a size
    error) and a byte slice as the binary form (16 bytes, any other length
    is a size error), each giving back the identifier that was encoded. *)
Theorem Scan_sources (id : SFID) (src : scan_source) :
  (src <> SrcNil -> (forall s, src <> SrcString s) ->
   (forall b, src <> SrcBytes b) ->
   Scan id src = (id, Some ErrScanValue)) /\
  Scan id SrcNil = (id, None) /\
  (forall s, Scan id (SrcString s) = UnmarshalText id (bytes_of_string s)) /\
  (forall b, Scan id (SrcBytes b) = UnmarshalBinary id b) /\
  (forall s, String.length s <> 26%nat ->
             Scan id (SrcString s) = (id, Some ErrDataSize)) /\
  (forall b, length b <> 16%nat ->
             Scan id (SrcBytes b) = (id, Some ErrDataSize)) /\
  (forall x, wf_SFID x -> length id = SFID_len ->
             Scan id (SrcString (String_ x)) = (x, None) /\
             Scan id (SrcBytes (fst (MarshalBinary x))) = (x, None)).
Proof.
  split; [|split; [|split; [|split; [|split; [|split]]]]].
  - intros Hnil Hstr Hbytes; destruct src; try reflexivity.
    + contradiction Hnil; reflexivity.
    + destruct (Hstr x); reflexivity.
    + destruct (Hbytes x); reflexivity.
  - reflexivity.
  - reflexivity.
  - reflexivity.
  - intros s Hs; unfold Scan, UnmarshalText, parse.
    rewrite bytes_of_string_length.
    destruct (Nat.eqb_spec (String.length s) EncodedSize) as [E|E];
      [contradiction|reflexivity].
  - intros b Hb; unfold Scan, UnmarshalBinary.
    destruct (Nat.eqb_spec (length b) SFID_len) as [E|E];
      [contradiction|reflexivity].
  - intros x Hwf Hid; split; unfold Scan.
    + unfold UnmarshalText; rewrite bytes_of_String by exact Hwf.
      apply parse_text; assumption.
    + destruct Hwf as [Hlen _].
      rewrite MarshalBinary_bytes by exact Hlen.
      apply UnmarshalBinary_bytes; assumption.
Qed.

Lemma Scan_sources_witness :
  Scan zero_SFID (SrcInt64 42) = (zero_SFID, Some ErrScanValue).
Proof.
  refine (proj1 (Scan_sources zero_SFID (SrcInt64 42)) _ _ _);
    intros; discriminate.
Defined.

(** C9, as stated, fails on the nil source: it is neither a string nor a
    byte slice, and [Scan] returns no error for it. *)
Lemma Scan_accepts_nil :
  (forall s, SrcNil <> SrcString s) /\
  (forall b, SrcNil <> SrcBytes b) /\
  Scan zero_SFID SrcNil = (zero_SFID, None) /\
  snd (Scan zero_SFID SrcNil) <> Some ErrScanValue.
Proof.
  repeat split; intros; discriminate.
Qed.

(** ** The identifiers of the generator *)

Lemma SNMask_value : SNMask = 2 ^ 24 - 1.
Proof. reflexivity. Qed.

Lemma to_int64_small (x : Z) : - 2 ^ 63 <= x < 2 ^ 63 -> to_int64 x = x.
Proof.
  intros Hx; unfold to_int64.
  rewrite Z.mod_small by (change (2 ^ 64) with (2 ^ 63 + 2 ^ 63); lia); lia.
Qed.

Lemma to_uint64_small (x : Z) : 0 <= x < 2 ^ 64 -> to_uint64 x = x.
Proof. intros Hx; apply Z.mod_small; exact Hx. Qed.

Lemma to_uint32_small (x : Z) : 0 <= x < 2 ^ 32 -> to_uint32 x = x.
Proof. intros Hx; apply Z.mod_small; exact Hx. Qed.

Lemma land_SNMask (x : Z) : Z.land x SNMask = x mod 2 ^ 24.
Proof. change SNMask with (Z.ones 24); apply Z.land_ones; lia. Qed.

Lemma nonce_bytes_ok (nonce : Z) :
  exists m8 m9 m10 m11 m12,
    nonce_bytes nonce = [m8; m9; m10; m11; m12] /\
    is_byte m8 /\ is_byte m9 /\ is_byte m10 /\ is_byte m11 /\ is_byte m12.
Proof.
  unfold nonce_bytes; destruct (nonce >? MaxNonce).
  - exists 0, 0, 0, 0, 0; unfold is_byte; repeat split; lia.
  - do 5 eexists; split; [reflexivity|].
    repeat split; apply to_byte_is_byte.
Qed.

Lemma identifier_bytes (nd nc t n : Z) :
  0 <= t <= maxTime -> 0 <= n <= maxSN ->
  identifier nd nc t n =
  [to_byte (shr t 40); to_byte (shr t 32); to_byte (shr t 24);
   to_byte (shr t 16); to_byte (shr t 8); to_byte t] ++
  [to_byte (shr nd 8); to_byte nd] ++ nonce_bytes nc ++
  [to_byte (shr n 16); to_byte (shr n 8); to_byte n].
Proof.
  intros Ht Hn; unfold identifier, SetTime, SetSN, SetNonce, nonce_bytes.
  rewrite (gtb_false t), (gtb_false n) by lia.
  destruct (nc >? MaxNonce); reflexivity.
Qed.

Lemma time_bytes_value (t : Z) :
  0 <= t <= maxTime ->
  big_endian 256
    [to_byte (shr t 40); to_byte (shr t 32); to_byte (shr t 24);
     to_byte (shr t 16); to_byte (shr t 8); to_byte t] = t.
Proof.
  rewrite maxTime_value; intros Ht.
  cbn [big_endian length].
  rewrite !to_byte_shr, to_byte_low by lia.
  assert (H48 : t / 2 ^ 48 = 0) by (apply Z.div_small; lia).
  change (40 + 8) with 48; change (32 + 8) with 40; change (24 + 8) with 32;
    change (16 + 8) with 24; change (8 + 8) with 16.
  rewrite H48.
  change (Z.of_nat 0) with 0; change (Z.of_nat 1) with 1;
    change (Z.of_nat 2) with 2; change (Z.of_nat 3) with 3;
    change (Z.of_nat 4) with 4; change (Z.of_nat 5) with 5.
  lia.
Qed.

Lemma sn_bytes_value (n : Z) :
  0 <= n <= maxSN ->
  big_endian 256 [to_byte (shr n 16); to_byte (shr n 8); to_byte n] = n.
Proof.
  rewrite maxSN_value; intros Hn.
  cbn [big_endian length].
  rewrite !to_byte_shr, to_byte_low by lia.
  assert (H24 : n / 2 ^ 24 = 0) by (apply Z.div_small; lia).
  change (16 + 8) with 24; change (8 + 8) with 16.
  rewrite H24.
  change (Z.of_nat 0) with 0; change (Z.of_nat 1) with 1;
    change (Z.of_nat 2) with 2.
  lia.
Qed.

Lemma identifier_wf (nd nc t n : Z) :
  0 <= t <= maxTime -> 0 <= n <= maxSN -> wf_SFID (identifier nd nc t n).
Proof.
  intros Ht Hn; rewrite identifier_bytes by assumption.
  destruct (nonce_bytes_ok nc) as (m8 & m9 & m10 & m11 & m12 & -> & Hm).
  split; [reflexivity|].
  cbn [app]; repeat (apply Forall_cons;
              [first [apply to_byte_is_byte|unfold is_byte in *; tauto]|]).
  apply Forall_nil.
Qed.

(** The value of an identifier of the generator: the timestamp above the
    56 bits of node and nonce, above the sequence number. *)
Lemma identifier_value (nd nc t n : Z) :
  0 <= t <= maxTime -> 0 <= n <= maxSN ->
  exists m, 0 <= m < 2 ^ 56 /\
    forall t' n', 0 <= t' <= maxTime -> 0 <= n' <= maxSN ->
      big_endian 256 (identifier nd nc t' n') = t' * 2 ^ 80 + m * 2 ^ 24 + n'.
Proof.
  intros _ _.
  destruct (nonce_bytes_ok nc) as (m8 & m9 & m10 & m11 & m12 & Hnb & Hm).
  exists (big_endian 256
            [to_byte (shr nd 8); to_byte nd; m8; m9; m10; m11; m12]).
  split.
  - apply (big_endian_bound 256
             [to_byte (shr nd 8); to_byte nd; m8; m9; m10; m11; m12]); [lia|].
    repeat (apply Forall_cons;
              [first [apply to_byte_is_byte|unfold is_byte in *; tauto]|]).
    apply Forall_nil.
  - intros t' n' Ht' Hn'.
    rewrite identifier_bytes, Hnb by assumption.
    change ([to_byte (shr nd 8); to_byte nd] ++ [m8; m9; m10; m11; m12] ++
            [to_byte (shr n' 16); to_byte (shr n' 8); to_byte n'])
      with ([to_byte (shr nd 8); to_byte nd; m8; m9; m10; m11; m12] ++
            [to_byte (shr n' 16); to_byte (shr n' 8); to_byte n']).
    rewrite !big_endian_app.
    rewrite time_bytes_value, sn_bytes_value by assumption.
    cbn [length Nat.add app].
    change (256 ^ Z.of_nat 10) with (2 ^ 80);
      change (256 ^ Z.of_nat 3) with (2 ^ 24).
    ring.
Qed.

Lemma identifier_Compare (nd nc t1 n1 t2 n2 : Z) :
  0 <= t1 <= maxTime -> 0 <= n1 <= maxSN ->
  0 <= t2 <= maxTime -> 0 <= n2 <= maxSN ->
  t1 < t2 \/ (t1 = t2 /\ n1 < n2) ->
  Compare (identifier nd nc t1 n1) (identifier nd nc t2 n2) = -1.
Proof.
  intros Ht1 Hn1 Ht2 Hn2 Hlt.
  rewrite Compare_value by (apply identifier_wf; assumption).
  destruct (identifier_value nd nc t1 n1 Ht1 Hn1) as (m & Hm & Hv).
  rewrite !Hv by assumption.
  rewrite maxSN_value in *.
  apply cmp_lt; lia.
Qed.

Lemma identifier_Time (nd nc t n : Z) :
  0 <= t <= maxTime -> 0 <= n <= maxSN -> Time (identifier nd nc t n) = t.
Proof.
  intros Ht Hn; rewrite identifier_bytes by assumption; cbn [app].
  rewrite Time_bytes by apply to_byte_is_byte.
  rewrite <- (time_bytes_value t Ht) at 7.
  cbn [big_endian length].
  change (Z.of_nat 0) with 0; change (Z.of_nat 1) with 1;
    change (Z.of_nat 2) with 2; change (Z.of_nat 3) with 3;
    change (Z.of_nat 4) with 4; change (Z.of_nat 5) with 5.
  change (256 ^ 5) with (2 ^ 40); change (256 ^ 4) with (2 ^ 32);
    change (256 ^ 3) with (2 ^ 24); change (256 ^ 2) with (2 ^ 16);
    change (256 ^ 1) with (2 ^ 8); change (256 ^ 0) with 1.
  lia.
Qed.

Lemma identifier_SN (nd nc t n : Z) :
  0 <= t <= maxTime -> 0 <= n <= maxSN -> SN (identifier nd nc t n) = n.
Proof.
  intros Ht Hn; rewrite identifier_bytes by assumption.
  destruct (nonce_bytes_ok nc) as (m8 & m9 & m10 & m11 & m12 & -> & Hm).
  cbn [app].
  rewrite SN_bytes by apply to_byte_is_byte.
  rewrite <- (sn_bytes_value n Hn) at 4.
  cbn [big_endian length].
  change (Z.of_nat 0) with 0; change (Z.of_nat 1) with 1;
    change (Z.of_nat 2) with 2.
  change (256 ^ 2) with (2 ^ 16); change (256 ^ 1) with (2 ^ 8);
    change (256 ^ 0) with 1.
  lia.
Qed.

(** ** The generator, call by call *)

Section GeneratorProperties.

Variable clock : nat -> Z.

(** Two cases of the critical section, computed: a call that opens a new
    millisecond, and a call within the recorded millisecond before the
    sequence is exhausted. *)
Lemma Next_locked_fresh (fuel : nat) (s : SnowflakePro) (k : nat) :
  0 <= clock k <= maxTime -> tms s < clock k ->
  Next_locked clock fuel s k =
  Some ({| sn := 0; node := node s; nonce := nonce s; tms := clock k |}, S k).
Proof.
  intros Hk Hlt; unfold Next_locked.
  rewrite maxTime_value in Hk.
  rewrite to_uint64_small by lia.
  destruct (Z.leb_spec (clock k) (tms s)); [lia|reflexivity].
Qed.

Lemma Next_locked_same (fuel : nat) (s : SnowflakePro) (k : nat) :
  gen_ok s -> 0 <= clock k <= tms s -> sn s < SNMask ->
  Next_locked clock fuel s k =
  Some ({| sn := sn s + 1; node := node s; nonce := nonce s; tms := tms s |},
        S k).
Proof.
  intros [Hsn Htms] Hk Hlt; unfold Next_locked.
  rewrite maxTime_value in Htms.
  rewrite SNMask_value in Hsn, Hlt.
  rewrite to_uint64_small by lia.
  cbn [sn tms node nonce].
  rewrite to_uint32_small, land_SNMask, Z.mod_small by lia.
  destruct (Z.leb_spec (clock k) (tms s)); [|lia].
  destruct (Z.eqb_spec (sn s + 1) 0); [lia|reflexivity].
Qed.

(** [n] calls within the millisecond [T] the generator has recorded, while
    the sequence is not exhausted, return: each takes one reading of the
    clock and adds one to the sequence. *)
Lemma calls_same_ms_exist (T : Z) (n : nat) (s : SnowflakePro) (k : nat) :
  gen_ok s -> tms s = T -> sn s + Z.of_nat n <= SNMask ->
  (forall i, (k <= i < k + n)%nat -> 0 <= clock i <= T) ->
  exists ids,
    calls clock s k ids
          {| sn := sn s + Z.of_nat n; node := node s; nonce := nonce s;
             tms := T |} (k + n)%nat /\
    length ids = n.
Proof.
  revert s k; induction n as [|n IH]; intros s k Hok HT Hsn Hclock.
  - exists []; rewrite Nat.add_0_r; split; [|reflexivity].
    change (Z.of_nat 0) with 0; rewrite Z.add_0_r, <- HT.
    destruct s; apply calls_none.
  - pose proof (Hclock k ltac:(lia)) as Hk.
    assert (Hlt : sn s < SNMask) by lia.
    pose proof (Next_locked_same 0 s k Hok ltac:(lia) Hlt) as Hlocked.
    set (s1 := {| sn := sn s + 1; node := node s; nonce := nonce s;
                  tms := tms s |}) in Hlocked.
    assert (Hok1 : gen_ok s1)
      by (destruct Hok; unfold gen_ok, s1; cbn [sn tms]; lia).
    destruct (IH s1 (S k) Hok1) as (ids & Hcalls & Hlen).
    + exact HT.
    + change (sn s1) with (sn s + 1); lia.
    + intros i Hi; apply Hclock; lia.
    + eexists (_ :: ids); split; [|cbn [length]; rewrite Hlen; reflexivity].
      replace (k + S n)%nat with (S k + n)%nat by lia.
      replace (sn s + Z.of_nat (S n)) with (sn s1 + Z.of_nat n)
        by (change (sn s1) with (sn s + 1); lia).
      eapply (calls_next clock 0); [|exact Hcalls].
      unfold Next; rewrite Hlocked; reflexivity.
Qed.

(** Every reading of the wall clock is a timestamp of the 48-bit field. *)
Hypothesis clock_range : forall k, 0 <= clock k <= maxTime.

Lemma until_reached (fuel : nat) (T : Z) (k k' : nat) :
  until clock fuel T k = Some k' ->
  (k < k')%nat /\ to_int64 (T - clock (k' - 1)) <= 0.
Proof.
  revert k; induction fuel as [|fuel IH]; intros k Hu; [discriminate Hu|].
  cbn [until] in Hu.
  destruct (Z.gtb_spec (to_int64 (T - clock k)) 0) as [Hgt|Hle].
  - destruct (IH (S k) Hu) as [Hk Hr]; split; [lia|exact Hr].
  - injection Hu as <-.
    replace (S k - 1)%nat with k by lia.
    split; [lia|exact Hle].
Qed.

Lemma until_returns (j : nat) (T : Z) (k : nat) :
  to_int64 (T - clock (k + j)) <= 0 ->
  exists k', until clock (S j) T k = Some k'.
Proof.
  revert k; induction j as [|j IH]; intros k Hj; cbn [until].
  - rewrite Nat.add_0_r in Hj; rewrite gtb_false by exact Hj; eauto.
  - destruct (Z.gtb_spec (to_int64 (T - clock k)) 0) as [Hgt|Hle]; [|eauto].
    apply IH; replace (S k + j)%nat with (k + S j)%nat by lia; exact Hj.
Qed.

(** The critical section, case by case. *)
Lemma Next_locked_cases (fuel : nat) (s s' : SnowflakePro) (k k' : nat) :
  gen_ok s -> Next_locked clock fuel s k = Some (s', k') ->
  node s' = node s /\ nonce s' = nonce s /\
  ((tms s < clock k /\ tms s' = clock k /\ sn s' = 0 /\ k' = S k) \/
   (clock k <= tms s /\ sn s < SNMask /\
    tms s' = tms s /\ sn s' = sn s + 1 /\ k' = S k) \/
   (clock k <= tms s /\ sn s = SNMask /\
    tms s' = tms s + 1 /\ sn s' = 0 /\ (S k < k')%nat /\
    tms s + 1 <= clock (k' - 1))).
Proof.
  intros [Hsn Htms] Hn; unfold Next_locked in Hn.
  pose proof (clock_range k) as Hk.
  rewrite maxTime_value in Hk, Htms; rewrite SNMask_value in Hsn |- *.
  rewrite (to_uint64_small (clock k)) in Hn by lia.
  cbn [sn tms node nonce] in Hn.
  rewrite (to_uint32_small (sn s + 1)), land_SNMask in Hn by lia.
  destruct (Z.leb_spec (clock k) (tms s)) as [Hle|Hgt].
  - destruct (Z.eqb_spec ((sn s + 1) mod 2 ^ 24) 0) as [Hz|Hnz].
    + assert (Hfull : sn s = 2 ^ 24 - 1).
      { destruct (Z.eq_dec (sn s) (2 ^ 24 - 1)) as [E|E]; [exact E|].
        rewrite Z.mod_small in Hz by lia; lia. }
      rewrite (to_uint64_small (tms s + 1)),
        (to_int64_small (tms s + 1)) in Hn by lia.
      destruct (until clock fuel (tms s + 1) (S k)) as [k1|] eqn:Hu;
        [|discriminate Hn].
      injection Hn as <- <-; cbn [sn tms node nonce].
      destruct (until_reached _ _ _ _ Hu) as [Hlt Hr].
      pose proof (clock_range (k1 - 1)) as Hk1.
      rewrite maxTime_value in Hk1.
      rewrite to_int64_small in Hr by lia.
      do 2 (split; [reflexivity|]).
      right; right; repeat split; try assumption; lia.
    + assert (Hsmall : sn s < 2 ^ 24 - 1).
      { destruct (Z.eq_dec (sn s) (2 ^ 24 - 1)) as [E|E]; [|lia].
        rewrite E in Hnz; contradiction Hnz; reflexivity. }
      injection Hn as <- <-; cbn [sn tms node nonce].
      rewrite Z.mod_small by lia.
      do 2 (split; [reflexivity|]).
      right; left; repeat split; try assumption; lia.
  - injection Hn as <- <-; cbn [sn tms node nonce].
    do 2 (split; [reflexivity|]).
    left; repeat split; try assumption; lia.
Qed.

Lemma Next_locked_step (fuel : nat) (s s' : SnowflakePro) (k k' : nat) :
  gen_ok s -> Next_locked clock fuel s k = Some (s', k') ->
  gen_ok s' /\ node s' = node s /\ nonce s' = nonce s /\ precedes s s'.
Proof.
  intros Hok Hn.
  destruct (Next_locked_cases fuel s s' k k' Hok Hn) as (Hnode & Hnonce & Hc).
  destruct Hok as [Hsn Htms].
  pose proof (clock_range k) as Hk; pose proof (clock_range (k' - 1)) as Hk'.
  unfold gen_ok, precedes; rewrite SNMask_value in Hsn, Hc |- *.
  repeat split; try assumption;
    destruct Hc as [Hc|[Hc|Hc]]; lia.
Qed.

Lemma Next_identifier (fuel : nat) (s s' : SnowflakePro) (k k' : nat)
    (id : SFID) :
  Next clock fuel s k = Some (s', k', id) ->
  Next_locked clock fuel s k = Some (s', k') /\
  id = identifier (node s) (nonce s) (tms s') (sn s').
Proof.
  unfold Next; destruct (Next_locked clock fuel s k) as [[s1 k1]|];
    [|discriminate].
  intros H; injection H as <- <- <-; split; reflexivity.
Qed.

Lemma gen_ok_maxSN (s : SnowflakePro) :
  gen_ok s -> 0 <= tms s <= maxTime /\ 0 <= sn s <= maxSN.
Proof.
  unfold gen_ok; rewrite SNMask_value, maxSN_value; tauto.
Qed.

Lemma precedes_trans (a b c : SnowflakePro) :
  precedes a b -> precedes b c -> precedes a c.
Proof. unfold precedes; lia. Qed.

(** The identifiers of a sequence of calls carry the generator's node and
    nonce and a pair (timestamp, sequence) after the one before the
    calls; each precedes, in [Compare], those that follow it. *)
Lemma calls_sorted (s : SnowflakePro) (k : nat) (ids : list SFID)
    (s' : SnowflakePro) (k' : nat) :
  calls clock s k ids s' k' -> gen_ok s ->
  gen_ok s' /\ node s' = node s /\ nonce s' = nonce s /\
  Forall (fun id => exists si,
            gen_ok si /\ precedes s si /\
            id = identifier (node s) (nonce s) (tms si) (sn si)) ids /\
  StronglySorted (fun a b => Compare a b = -1) ids.
Proof.
  induction 1 as [s k|fuel s k s1 k1 id ids s2 k2 Hnext _ IH]; intros Hok.
  - split; [exact Hok|]; split; [reflexivity|]; split; [reflexivity|].
    split; constructor.
  - destruct (Next_identifier _ _ _ _ _ _ Hnext) as [Hlocked ->].
    destruct (Next_locked_step _ _ _ _ _ Hok Hlocked)
      as (Hok1 & Hnode & Hnonce & Hprec).
    destruct (IH Hok1) as (Hok2 & Hnode2 & Hnonce2 & Hall & Hsorted).
    rewrite Hnode, Hnonce in *.
    assert (Hall' : Forall (fun id => exists si,
              gen_ok si /\ precedes s1 si /\
              id = identifier (node s) (nonce s) (tms si) (sn si)) ids)
      by exact Hall.
    split; [exact Hok2|]. split; [exact Hnode2|]. split; [exact Hnonce2|].
    split.
    + constructor.
      * exists s1; repeat split; try assumption; apply Hok1.
      * eapply Forall_impl; [|exact Hall'].
        intros a (si & Hsi & Hp & ->); exists si.
        repeat split; try apply Hsi.
        eapply precedes_trans; eassumption.
    + constructor; [exact Hsorted|].
      eapply Forall_impl; [|exact Hall'].
      intros a (si & Hsi & Hp & ->).
      destruct (gen_ok_maxSN s1 Hok1), (gen_ok_maxSN si Hsi).
      apply identifier_Compare; assumption.
Qed.


End GeneratorProperties.

(** ** Monotonicity *)


Lemma NewSnowflakePro_ok (nodeid nonce0 : Z) (g : SnowflakePro) :
  NewSnowflakePro nodeid nonce0 = (Some g, None) -> gen_ok g.
Proof.
  unfold NewSnowflakePro; destruct (nonce0 >? MaxNonce); [discriminate|].
  intros H; injection H as <-.
  unfold gen_ok; cbn [sn tms]; rewrite SNMask_value, maxTime_value; lia.
Qed.




(** ** Sequence wraparound *)

(** A loop of [until] that ends, ends after the same reading whatever the
    bound on its readings. *)
Lemma until_fuel (clock : nat -> Z) (f1 f2 : nat) (T : Z) (k a b : nat) :
  until clock f1 T k = Some a -> until clock f2 T k = Some b -> a = b.
Proof.
  revert f2 k; induction f1 as [|f1 IH]; intros f2 k H1 H2;
    [discriminate H1|].
  destruct f2 as [|f2]; [discriminate H2|].
  cbn [until] in H1, H2.
  destruct (to_int64 (T - clock k) >? 0).
  - exact (IH f2 (S k) H1 H2).
  - congruence.
Qed.

Lemma Next_locked_fuel (clock : nat -> Z) (f1 f2 : nat) (s : SnowflakePro)
    (k : nat) (r1 r2 : SnowflakePro * nat) :
  Next_locked clock f1 s k = Some r1 -> Next_locked clock f2 s k = Some r2 ->
  r1 = r2.
Proof.
  unfold Next_locked; cbn [sn tms node nonce].
  destruct (to_uint64 (clock k) <=? tms s); [|congruence].
  destruct (Z.land (to_uint32 (sn s + 1)) SNMask =? 0); [|congruence].
  destruct (until clock f1 _ (S k)) as [a|] eqn:Ha; [|discriminate].
  destruct (until clock f2 _ (S k)) as [b|] eqn:Hb; [|discriminate].
  rewrite (until_fuel _ _ _ _ _ _ _ Ha Hb); congruence.
Qed.

(** A call that leaves the sequence number 0 has opened a millisecond: the
    timestamp it recorded is a reading of the clock or the successor of the
    timestamp before, as a [uint64]. *)
Lemma Next_locked_opens (clock : nat -> Z) (fuel : nat) (s s' : SnowflakePro)
    (k k' : nat) :
  Next_locked clock fuel s k = Some (s', k') -> sn s' = 0 ->
  0 <= tms s' < 2 ^ 64 /\ node s' = node s /\ nonce s' = nonce s.
Proof.
  unfold Next_locked; cbn [sn tms node nonce].
  destruct (to_uint64 (clock k) <=? tms s).
  - destruct (Z.eqb_spec (Z.land (to_uint32 (sn s + 1)) SNMask) 0) as [E|E].
    + destruct (until clock fuel _ (S k)); [|discriminate].
      intros H _; injection H as <- <-; cbn [sn tms node nonce].
      unfold to_uint64; split; [divmod|split; reflexivity].
    + intros H; injection H as <- <-; cbn [sn]; intros H; contradiction.
  - intros H _; injection H as <- <-; cbn [sn tms node nonce].
    unfold to_uint64; split; [divmod|split; reflexivity].
Qed.

(** Calls within the millisecond [T] the generator has recorded, before
    the sequence is exhausted: each takes one reading of the clock and adds
    one to the sequence. *)
Lemma calls_within_ms (clock : nat -> Z) (T : Z) (s : SnowflakePro) (k : nat)
    (ids : list SFID) (s' : SnowflakePro) (k' : nat) :
  calls clock s k ids s' k' ->
  gen_ok s -> tms s = T -> sn s + Z.of_nat (length ids) <= SNMask ->
  (forall i, (k <= i < k + length ids)%nat -> 0 <= clock i <= T) ->
  tms s' = T /\ sn s' = sn s + Z.of_nat (length ids) /\
  k' = (k + length ids)%nat /\ node s' = node s /\ nonce s' = nonce s.
Proof.
  induction 1 as [s k|fuel s k s1 k1 id ids s2 k2 Hnext _ IH];
    intros Hok HT Hsn Hclock.
  - cbn [length]; repeat split; try assumption; lia.
  - cbn [length] in Hsn, Hclock |- *.
    destruct (Next_identifier _ _ _ _ _ _ _ Hnext) as [Hlocked _].
    pose proof (Hclock k ltac:(lia)) as Hk.
    rewrite (Next_locked_same clock fuel s k Hok) in Hlocked by lia.
    injection Hlocked as <- <-.
    destruct IH as (H1 & H2 & H3 & H4 & H5).
    + destruct Hok; unfold gen_ok; cbn [sn tms]; lia.
    + exact HT.
    + cbn [sn]; lia.
    + intros i Hi; apply Hclock; lia.
    + cbn [sn node nonce] in H2, H4, H5.
      repeat split; try assumption; lia.
Qed.

(** The call that finds the sequence exhausted within the recorded
    millisecond: it advances the timestamp by one and returns after a reading
    of the clock that has reached it. *)
Lemma Next_locked_wrap (clock : nat -> Z) (fuel : nat) (s s' : SnowflakePro)
    (k k' : nat) :
  (forall i, 0 <= clock i < 2 ^ 63) ->
  sn s = SNMask -> 0 <= tms s -> tms s + 1 <= maxTime -> clock k <= tms s ->
  Next_locked clock fuel s k = Some (s', k') ->
  sn s' = 0 /\ tms s' = tms s + 1 /\ (S k < k')%nat /\
  tms s + 1 <= clock (k' - 1)%nat.
Proof.
  intros Hclock Hfull H0 Hfit Hle; unfold Next_locked.
  pose proof (Hclock k) as Hk.
  rewrite maxTime_value in Hfit; rewrite SNMask_value in Hfull.
  rewrite to_uint64_small by lia.
  cbn [sn tms node nonce].
  rewrite Hfull, to_uint32_small by lia.
  change (Z.land (2 ^ 24 - 1 + 1) SNMask) with 0.
  change (0 =? 0) with true; cbv iota.
  destruct (Z.leb_spec (clock k) (tms s)); [|lia].
  rewrite to_uint64_small, to_int64_small by lia.
  destruct (until clock fuel (tms s + 1) (S k)) as [k1|] eqn:Hu;
    [|discriminate].
  intros Heq; injection Heq as <- <-; cbn [sn tms].
  destruct (until_reached _ _ _ _ _ Hu) as [Hlt Hr].
  pose proof (Hclock (k1 - 1)%nat) as Hk1.
  rewrite to_int64_small in Hr by lia.
  repeat split; lia.
Qed.

Lemma Next_locked_wrap_ends (clock : nat -> Z) (j : nat) (s : SnowflakePro)
    (k : nat) :
  (forall i, 0 <= clock i < 2 ^ 63) ->
  sn s = SNMask -> 0 <= tms s -> tms s + 1 <= maxTime -> clock k <= tms s ->
  tms s + 1 <= clock (S k + j)%nat ->
  exists r, Next_locked clock (S j) s k = Some r.
Proof.
  intros Hclock Hfull H0 Hfit Hle Hj; unfold Next_locked.
  pose proof (Hclock k) as Hk.
  pose proof (Hclock (S k + j)%nat) as Hkj.
  rewrite maxTime_value in Hfit; rewrite SNMask_value in Hfull.
  rewrite to_uint64_small by lia.
  cbn [sn tms node nonce].
  rewrite Hfull, to_uint32_small by lia.
  change (Z.land (2 ^ 24 - 1 + 1) SNMask) with 0.
  change (0 =? 0) with true; cbv iota.
  destruct (Z.leb_spec (clock k) (tms s)); [|lia].
  rewrite to_uint64_small, to_int64_small by lia.
  destruct (until_returns clock j (tms s + 1) (S k)) as [k' ->]; [|eauto].
  rewrite to_int64_small by lia; lia.
Qed.

(** A reading of the clock before the epoch is, as the [uint64] that
    [Next] compares, after every timestamp of the field: the call opens a
    millisecond instead of counting within the recorded one. *)
Lemma Next_locked_negative_reading (clock : nat -> Z) (fuel : nat)
    (s : SnowflakePro) (k : nat) :
  - 2 ^ 63 <= clock k < 0 -> tms s < 2 ^ 63 ->
  Next_locked clock fuel s k =
  Some ({| sn := 0; node := node s; nonce := nonce s;
           tms := clock k + 2 ^ 64 |}, S k).
Proof.
  intros Hk Ht; unfold Next_locked.
  replace (to_uint64 (clock k)) with (clock k + 2 ^ 64)
    by (unfold to_uint64; divmod).
  destruct (Z.leb_spec (clock k + 2 ^ 64) (tms s)); [lia|reflexivity].
Qed.

(** C5, as the code has it: let every reading of the wall clock be a
    non-negative [int64], and let a call of [Next] open millisecond [T]: it
    returns with the sequence number 0 and the timestamp [T] recorded,
    whether the clock had passed the timestamp recorded before or the
    sequence of the millisecond before was exhausted.  Let [T + 1] fit the
    48-bit field ([T + 1 <= 2^48 - 1]) and let the clock not pass [T] in the
    [2^24] readings that follow the opening call.  Then the opening call has
    emitted sequence number 0 with timestamp [T]; the first [2^24] calls,
    the opening call included, return; after them the generator has
    recorded [T] with the last sequence number [2^24 - 1]; the call number
    [2^24 + 1], when it returns, has set the sequence number to 0 and the
    timestamp to [T + 1], its identifier carries sequence number 0 and
    timestamp [T + 1], and the last reading of the clock it made is at
    least [T + 1], whatever the clock reads after [T], also beyond the
    field; and it does return, once a later reading of the clock reaches
    [T + 1]. *)
Theorem sequence_wraparound (clock : nat -> Z) (fuel0 : nat)
    (g0 : SnowflakePro) (k0 : nat) (g : SnowflakePro) (k : nat) (id0 : SFID)
    (T : Z) :
  (forall i, 0 <= clock i < 2 ^ 63) ->
  Next clock fuel0 g0 k0 = Some (g, k, id0) ->
  sn g = 0 -> tms g = T -> T + 1 <= maxTime ->
  (forall i, (k <= i)%nat -> Z.of_nat i < Z.of_nat k + 2 ^ 24 ->
             clock i <= T) ->
  (SN id0 = 0 /\ Time id0 = T) /\
  (exists ids g1 k1,
     calls clock g0 k0 ids g1 k1 /\ Z.of_nat (length ids) = 2 ^ 24) /\
  (forall ids g1 k1,
     calls clock g0 k0 ids g1 k1 -> Z.of_nat (length ids) = 2 ^ 24 ->
     tms g1 = T /\ sn g1 = 2 ^ 24 - 1 /\
     Z.of_nat k1 = Z.of_nat k + 2 ^ 24 - 1 /\
     (forall fuel g2 k2 id,
        Next clock fuel g1 k1 = Some (g2, k2, id) ->
        sn g2 = 0 /\ tms g2 = T + 1 /\
        SN id = 0 /\ Time id = T + 1 /\
        (k1 + 1 < k2)%nat /\ T + 1 <= clock (k2 - 1)%nat) /\
     (forall j, T + 1 <= clock (k1 + 1 + j)%nat ->
        exists r, Next clock (S j) g1 k1 = Some r)).
Proof.
  intros Hclock Hopen Hsn HT Hfit Hstall.
  destruct (Next_identifier _ _ _ _ _ _ _ Hopen) as [Hlocked0 Hid0].
  destruct (Next_locked_opens _ _ _ _ _ _ Hlocked0 Hsn) as (HT0 & _ & _).
  rewrite HT in HT0.
  assert (Hok : gen_ok g).
  { unfold gen_ok; rewrite Hsn, HT, SNMask_value; lia. }
  assert (Hn : Z.of_nat (Z.to_nat (2 ^ 24 - 1)) = 2 ^ 24 - 1)
    by (apply Z2Nat.id; lia).
  set (n := Z.to_nat (2 ^ 24 - 1)) in Hn; clearbody n.
  split; [|split].
  - rewrite Hid0, Hsn, HT.
    split; [apply identifier_SN|apply identifier_Time];
      rewrite ?maxSN_value; lia.
  - destruct (calls_same_ms_exist clock T n g k Hok HT)
      as (ids & Hcalls & Hlen).
    + rewrite Hsn, SNMask_value; lia.
    + intros i Hi; split; [apply Hclock|apply Hstall; lia].
    + exists (id0 :: ids); eexists _, _; split.
      * eapply calls_next; [exact Hopen|exact Hcalls].
      * cbn [length]; rewrite Hlen; lia.
  - intros ids g1 k1 Hcalls Hlen.
    inversion Hcalls as [|fuel ? ? s1 k1' id ids' ? ? Hnext Hrest]; subst;
      [cbn [length] in Hlen; lia|].
    destruct (Next_identifier _ _ _ _ _ _ _ Hnext) as [Hlocked _].
    pose proof (Next_locked_fuel _ _ _ _ _ _ _ Hlocked Hlocked0) as E.
    injection E as -> ->.
    cbn [length] in Hlen.
    destruct (calls_within_ms clock (tms g) _ _ _ _ _ Hrest Hok eq_refl)
      as (Htms & Hsn1 & Hk1 & _).
    { rewrite Hsn, SNMask_value; lia. }
    { intros i Hi; split; [apply Hclock|apply Hstall; lia]. }
    rewrite Hsn in Hsn1.
    assert (Hck1 : clock k1 <= tms g1) by (rewrite Htms; apply Hstall; lia).
    split; [exact Htms|]. split; [lia|]. split; [lia|].
    split.
    + intros fuel2 g2 k2 id2 Hnext2.
      destruct (Next_identifier _ _ _ _ _ _ _ Hnext2) as [Hlocked2 ->].
      assert (Hfull : sn g1 = SNMask) by (rewrite SNMask_value; lia).
      destruct (Next_locked_wrap clock _ _ _ _ _ Hclock Hfull
                  ltac:(lia) ltac:(lia) Hck1 Hlocked2)
        as (Hsn2 & Htms2 & Hk2 & Hreach).
      rewrite Hsn2, Htms2, Htms in *.
      split; [reflexivity|]. split; [reflexivity|].
      split; [apply identifier_SN; rewrite ?maxSN_value; lia|].
      split; [apply identifier_Time; rewrite ?maxSN_value; lia|].
      split; [lia|exact Hreach].
    + intros j Hj.
      assert (Hfull : sn g1 = SNMask) by (rewrite SNMask_value; lia).
      destruct (Next_locked_wrap_ends clock j g1 k1 Hclock Hfull
                  ltac:(lia) ltac:(lia) Hck1)
        as [[g2 k2] Hr].
      * rewrite Htms; replace (S k1 + j)%nat with (k1 + 1 + j)%nat by lia.
        exact Hj.
      * unfold Next; rewrite Hr; eauto.
Qed.

Lemma sequence_wraparound_witness :
  exists ids g1 k1,
    calls stalled_clock
          {| sn := 16777215; node := 100; nonce := 123456789; tms := 4 |} 0
          ids g1 k1 /\
    Z.of_nat (length ids) = 2 ^ 24.
Proof.
  refine (proj1 (proj2
    (sequence_wraparound stalled_clock 1
       {| sn := 16777215; node := 100; nonce := 123456789; tms := 4 |} 0
       {| sn := 0; node := 100; nonce := 123456789; tms := 5 |} 2
       [0; 0; 0; 0; 0; 5; 0; 100; 0; 7; 91; 205; 21; 0; 0; 0] 5
       _ _ _ _ _ _))).
  - intros [|i]; cbn [stalled_clock]; [lia|].
    destruct (Z.of_nat (S i) <=? 2 ^ 24 + 1); lia.
  - reflexivity.
  - reflexivity.
  - reflexivity.
  - rewrite maxTime_value; lia.
  - intros [|i] Hi Hle; cbn [stalled_clock]; [lia|].
    destruct (Z.leb_spec (Z.of_nat (S i)) (2 ^ 24 + 1)); lia.
Defined.

Lemma last_ms_clock_low (i : nat) :
  Z.of_nat i <= 2 ^ 24 -> last_ms_clock i = maxTime.
Proof.
  intros Hi; unfold last_ms_clock.
  destruct (Z.leb_spec (Z.of_nat i) (2 ^ 24)); [reflexivity|lia].
Qed.

Lemma last_ms_clock_high (i : nat) :
  2 ^ 24 < Z.of_nat i -> last_ms_clock i = maxTime + 1.
Proof.
  intros Hi; unfold last_ms_clock.
  destruct (Z.leb_spec (Z.of_nat i) (2 ^ 24)); [lia|reflexivity].
Qed.

(** C5, as stated, fails in the last millisecond of the 48-bit field.  The
    clock reads [2^48 - 1] when the first call of a generator made by
    [NewSnowflakePro] opens that millisecond and up to the start of call
    [2^24 + 1], and [2^48] afterwards; every reading is a non-negative
    [int64].  The first [2^24] calls return; call [2^24 + 1] wraps the
    sequence to 0, advances the recorded timestamp to [2^48] and returns
    after the clock has reached it, but [SetTime] refuses that timestamp and
    the identifier carries timestamp 0. *)
Lemma wraparound_in_the_last_millisecond :
  exists g0 g id0 ids g1 k1 g2 k2 id,
    NewSnowflakePro 100 123456789 = (Some g0, None) /\
    (forall i, 0 <= last_ms_clock i < 2 ^ 63) /\
    Next last_ms_clock 0 g0 0 = Some (g, 1%nat, id0) /\
    sn g = 0 /\ tms g = maxTime /\
    (forall i, (1 <= i)%nat -> Z.of_nat i < 1 + 2 ^ 24 ->
               last_ms_clock i <= maxTime) /\
    calls last_ms_clock g0 0 ids g1 k1 /\
    Z.of_nat (length ids) = 2 ^ 24 /\
    tms g1 = maxTime /\ sn g1 = 2 ^ 24 - 1 /\
    Next last_ms_clock 1 g1 k1 = Some (g2, k2, id) /\
    sn g2 = 0 /\ tms g2 = maxTime + 1 /\
    maxTime + 1 <= last_ms_clock (k2 - 1) /\
    SN id = 0 /\ Time id = 0 /\ Time id <> maxTime + 1.
Proof.
  assert (Hn : Z.of_nat (Z.to_nat (2 ^ 24 - 1)) = 2 ^ 24 - 1)
    by (apply Z2Nat.id; lia).
  set (n := Z.to_nat (2 ^ 24 - 1)) in Hn; clearbody n.
  set (g := {| sn := 0; node := 100; nonce := 123456789; tms := 0 |}).
  set (s1 := {| sn := 0; node := 100; nonce := 123456789; tms := maxTime |}).
  assert (Hfirst : Next_locked last_ms_clock 0 g 0 = Some (s1, 1%nat)).
  { apply (Next_locked_fresh last_ms_clock 0 g 0);
      rewrite last_ms_clock_low, maxTime_value by (cbn; lia);
      change (tms g) with 0; lia. }
  assert (Hok1 : gen_ok s1).
  { unfold gen_ok, s1; cbn [sn tms];
      rewrite SNMask_value, maxTime_value; lia. }
  destruct (calls_same_ms_exist last_ms_clock maxTime n s1 1 Hok1 eq_refl)
    as (ids & Hcalls & Hlen).
  { change (sn s1) with 0; rewrite SNMask_value; lia. }
  { intros i Hi; rewrite last_ms_clock_low by lia.
    rewrite maxTime_value; lia. }
  change (sn s1) with 0 in Hcalls; change (node s1) with 100 in Hcalls;
    change (nonce s1) with 123456789 in Hcalls.
  rewrite Z.add_0_l, Hn in Hcalls.
  set (g1 := {| sn := 2 ^ 24 - 1; node := 100; nonce := 123456789;
                tms := maxTime |}) in Hcalls.
  set (g2 := {| sn := 0; node := 100; nonce := 123456789;
                tms := maxTime + 1 |}).
  assert (Hlast : Next_locked last_ms_clock 1 g1 (1 + n) =
                  Some (g2, S (S (1 + n)))).
  { unfold Next_locked; cbn [until].
    rewrite (last_ms_clock_low (1 + n)), (last_ms_clock_high (S (1 + n)))
      by lia.
    reflexivity. }
  exists g, s1, (identifier 100 123456789 maxTime 0),
    (identifier 100 123456789 maxTime 0 :: ids), g1, (1 + n)%nat, g2,
    (S (S (1 + n))), (identifier 100 123456789 (maxTime + 1) 0).
  split; [reflexivity|].
  split.
  { intros i; unfold last_ms_clock; rewrite maxTime_value.
    destruct (Z.of_nat i <=? 2 ^ 24); lia. }
  split; [unfold Next; rewrite Hfirst; reflexivity|].
  split; [reflexivity|]. split; [reflexivity|].
  split; [intros i _ Hi; rewrite last_ms_clock_low by lia; lia|].
  split.
  { eapply (calls_next _ 0); [|exact Hcalls].
    unfold Next; rewrite Hfirst; reflexivity. }
  split; [cbn [length]; rewrite Hlen; lia|].
  split; [reflexivity|]. split; [reflexivity|].
  split; [unfold Next; rewrite Hlast; reflexivity|].
  split; [reflexivity|]. split; [reflexivity|].
  split.
  { replace (S (S (1 + n)) - 1)%nat with (S (1 + n)) by lia.
    rewrite last_ms_clock_high by lia; lia. }
  split; [reflexivity|].
  split; [reflexivity|].
  vm_compute; discriminate.
Qed.

(** * Further properties of the code *)

(** A list of bytes written out is an identifier. *)
Ltac concrete_wf :=
  split;
  [reflexivity
  |repeat (apply Forall_cons; [unfold is_byte; lia|]); apply Forall_nil].

(** ** Buffers of the encoders *)

Lemma Encoding_at_in_alphabet (d : Z) :
  is_digit d -> in_symbols Encoding (Encoding_at d) = true.
Proof.
  intros Hd.
  apply (below_spec (fun d => in_symbols Encoding (Encoding_at d)) 32);
    [vm_compute; reflexivity|exact Hd].
Qed.

(** X1: [MarshalTextTo] reports the buffer-size error exactly when the
    buffer does not have 26 bytes, and then leaves the buffer as it was.
    On a buffer of 26 bytes it succeeds and overwrites all of it: the
    result has 26 bytes, each a symbol of the alphabet, the first at most
    ['7'], and does not depend on what the buffer held. *)
Theorem MarshalTextTo_buffer (id : SFID) (dst : list Z) :
  wf_SFID id ->
  (snd (MarshalTextTo id dst) = Some ErrBufferSize <->
   length dst <> 26%nat) /\
  (length dst <> 26%nat -> fst (MarshalTextTo id dst) = dst) /\
  (length dst = 26%nat ->
   snd (MarshalTextTo id dst) = None /\
   length (fst (MarshalTextTo id dst)) = 26%nat /\
   Forall (fun c => in_symbols Encoding c = true)
          (fst (MarshalTextTo id dst)) /\
   (fst (MarshalTextTo id dst)).[0] <= byte_of_ascii "7" /\
   forall dst', length dst' = 26%nat ->
                MarshalTextTo id dst' = MarshalTextTo id dst).
Proof.
  intros Hwf.
  destruct (Nat.eq_dec (length dst) 26) as [Hlen|Hlen].
  - rewrite MarshalTextTo_digits by exact Hlen.
    destruct (digits_range id Hwf) as [Hall Hfirst].
    split; [split; [discriminate|contradiction]|].
    split; [contradiction|].
    intros _; cbn [fst snd].
    split; [reflexivity|].
    split; [rewrite length_map; reflexivity|].
    split.
    + apply Forall_forall; intros c Hc.
      apply in_map_iff in Hc as (d & <- & Hd).
      rewrite Forall_forall in Hall.
      apply Encoding_at_in_alphabet, Hall, Hd.
    + split.
      * change ((map Encoding_at (digits id)).[0])
          with (Encoding_at (digits id).[0]).
        apply Encoding_at_first.
        assert (H0 : is_digit (digits id).[0]).
        { unfold digits in *; cbn [nth] in *.
          inversion_clear Hall as [|? ? Hd _]; apply Hd. }
        unfold is_digit in H0; lia.
      * intros dst' Hlen'; apply MarshalTextTo_digits, Hlen'.
  - unfold MarshalTextTo.
    destruct (Nat.eqb_spec (length dst) EncodedSize) as [E|E];
      [contradiction|].
    cbn [negb fst snd].
    split; [split; [intros _; exact Hlen|reflexivity]|].
    split; [reflexivity|contradiction].
Qed.

Lemma MarshalTextTo_buffer_witness :
  snd (MarshalTextTo
         [1; 139; 207; 229; 104; 0; 0; 100; 0; 7; 91; 205; 21; 0; 0; 255]
         [1; 2; 3]) = Some ErrBufferSize <->
  length [1; 2; 3] <> 26%nat.
Proof.
  refine (proj1 (MarshalTextTo_buffer
    [1; 139; 207; 229; 104; 0; 0; 100; 0; 7; 91; 205; 21; 0; 0; 255]
    [1; 2; 3] _)).
  concrete_wf.
Defined.

(** X2: the binary encoders check the size and copy.  [MarshalBinaryTo]
    reports the buffer-size error exactly when the buffer does not have
    16 bytes and then leaves it as it was, and otherwise makes the buffer
    the identifier; [UnmarshalBinary] reports the size error exactly when
    the data does not have 16 bytes, and otherwise makes the identifier
    the data, whatever it held. *)
Theorem binary_sizes (id : SFID) (buf : list Z) :
  length id = SFID_len ->
  (snd (MarshalBinaryTo id buf) = Some ErrBufferSize <->
   length buf <> 16%nat) /\
  (length buf <> 16%nat -> fst (MarshalBinaryTo id buf) = buf) /\
  (length buf = 16%nat -> MarshalBinaryTo id buf = (id, None)) /\
  (snd (UnmarshalBinary id buf) = Some ErrDataSize <->
   length buf <> 16%nat) /\
  (length buf = 16%nat -> UnmarshalBinary id buf = (buf, None)).
Proof.
  intros Hid; unfold MarshalBinaryTo, UnmarshalBinary.
  destruct (Nat.eqb_spec (length buf) SFID_len) as [E|E]; cbn [negb fst snd].
  - rewrite !copy_all by congruence.
    repeat split; try discriminate; try contradiction; reflexivity.
  - split; [split; [intros _; exact E|reflexivity]|].
    split; [reflexivity|].
    split; [contradiction|].
    split; [split; [intros _; exact E|reflexivity]|contradiction].
Qed.

Lemma binary_sizes_witness :
  snd (UnmarshalBinary zero_SFID [1; 2; 3]) = Some ErrDataSize <->
  length [1; 2; 3] <> 16%nat.
Proof.
  refine (proj1 (proj2 (proj2 (proj2
    (binary_sizes zero_SFID [1; 2; 3] _))))).
  reflexivity.
Defined.

(** X3: the text encoding is injective: two identifiers with the same text
    are the same identifier. *)
Theorem String_injective (a b : SFID) :
  wf_SFID a -> wf_SFID b -> String_ a = String_ b -> a = b.
Proof.
  intros Ha Hb Heq.
  assert (Hbytes : map Encoding_at (digits a) = map Encoding_at (digits b))
    by (rewrite <- !bytes_of_String by assumption; rewrite Heq; reflexivity).
  pose proof (parse_text a zero_SFID false Ha eq_refl) as Pa.
  pose proof (parse_text b zero_SFID false Hb eq_refl) as Pb.
  rewrite Hbytes in Pa; congruence.
Qed.

Lemma String_injective_witness :
  [1; 139; 207; 229; 104; 0; 0; 100; 0; 7; 91; 205; 21; 0; 0; 255] =
  [1; 139; 207; 229; 104; 0; 0; 100; 0; 7; 91; 205; 21; 0; 0; 255].
Proof.
  refine (String_injective
    [1; 139; 207; 229; 104; 0; 0; 100; 0; 7; 91; 205; 21; 0; 0; 255]
    [1; 139; 207; 229; 104; 0; 0; 100; 0; 7; 91; 205; 21; 0; 0; 255]
    _ _ eq_refl); concrete_wf.
Defined.

(** ** From text to identifier and back *)

Lemma list26_eta (l : list Z) :
  length l = 26%nat ->
  l = [ l.[0]; l.[1]; l.[2]; l.[3]; l.[4]; l.[5]; l.[6]; l.[7]; l.[8];
        l.[9]; l.[10]; l.[11]; l.[12]; l.[13]; l.[14]; l.[15]; l.[16];
        l.[17]; l.[18]; l.[19]; l.[20]; l.[21]; l.[22]; l.[23]; l.[24];
        l.[25] ].
Proof. intros Hlen; explode26 l Hlen; reflexivity. Qed.

Lemma Forall_nth26 (P : Z -> Prop) (l : list Z) (i : nat) :
  length l = 26%nat -> Forall P l -> (i < 26)%nat -> P l.[i].
Proof.
  intros Hlen Hall Hi; rewrite Forall_forall in Hall.
  apply Hall, nth_In; lia.
Qed.

Ltac digit_nth Hlen Hall :=
  apply (Forall_nth26 is_digit _ _ Hlen Hall); lia.

Lemma assemble_by_division (ds : list Z) :
  length ds = 26%nat -> Forall is_digit ds ->
  assemble ds =
  [ (ds.[0] mod 8) * 32 + ds.[1];
    ds.[2] * 8 + ds.[3] / 4;
    (ds.[3] mod 4) * 64 + ds.[4] * 2 + ds.[5] / 16;
    (ds.[5] mod 16) * 16 + ds.[6] / 2;
    (ds.[6] mod 2) * 128 + ds.[7] * 4 + ds.[8] / 8;
    (ds.[8] mod 8) * 32 + ds.[9];
    ds.[10] * 8 + ds.[11] / 4;
    (ds.[11] mod 4) * 64 + ds.[12] * 2 + ds.[13] / 16;
    (ds.[13] mod 16) * 16 + ds.[14] / 2;
    (ds.[14] mod 2) * 128 + ds.[15] * 4 + ds.[16] / 8;
    (ds.[16] mod 8) * 32 + ds.[17];
    ds.[18] * 8 + ds.[19] / 4;
    (ds.[19] mod 4) * 64 + ds.[20] * 2 + ds.[21] / 16;
    (ds.[21] mod 16) * 16 + ds.[22] / 2;
    (ds.[22] mod 2) * 128 + ds.[23] * 4 + ds.[24] / 8;
    (ds.[24] mod 8) * 32 + ds.[25] ].
Proof.
  intros Hlen Hall; unfold assemble.
  rewrite !asm_a, !asm_b, !asm_c, !asm_d, !asm_e by digit_nth Hlen Hall.
  reflexivity.
Qed.

Lemma group_bytes_range (d0 d1 d2 d3 d4 d5 d6 d7 : Z) :
  is_digit d0 -> is_digit d1 -> is_digit d2 -> is_digit d3 ->
  is_digit d4 -> is_digit d5 -> is_digit d6 -> is_digit d7 ->
  is_byte (d0 * 8 + d1 / 4) /\
  is_byte ((d1 mod 4) * 64 + d2 * 2 + d3 / 16) /\
  is_byte ((d3 mod 16) * 16 + d4 / 2) /\
  is_byte ((d4 mod 2) * 128 + d5 * 4 + d6 / 8) /\
  is_byte ((d6 mod 8) * 32 + d7).
Proof.
  unfold is_digit, is_byte; intros.
  repeat split; divmod.
Qed.

Lemma group_digits_assembled (d0 d1 d2 d3 d4 d5 d6 d7 : Z) :
  is_digit d0 -> is_digit d1 -> is_digit d2 -> is_digit d3 ->
  is_digit d4 -> is_digit d5 -> is_digit d6 -> is_digit d7 ->
  group_digits (d0 * 8 + d1 / 4)
               ((d1 mod 4) * 64 + d2 * 2 + d3 / 16)
               ((d3 mod 16) * 16 + d4 / 2)
               ((d4 mod 2) * 128 + d5 * 4 + d6 / 8)
               ((d6 mod 8) * 32 + d7) =
  [d0; d1; d2; d3; d4; d5; d6; d7].
Proof.
  unfold is_digit, group_digits; intros.
  repeat (apply (f_equal2 cons); [divmod|]); reflexivity.
Qed.

Lemma head_byte_range (d0 d1 : Z) :
  is_digit d0 -> is_digit d1 -> is_byte ((d0 mod 8) * 32 + d1).
Proof. unfold is_digit, is_byte; intros; divmod. Qed.

Lemma head_digits_assembled (d0 d1 : Z) :
  is_digit d0 -> is_digit d1 -> d0 < 8 ->
  head_digits ((d0 mod 8) * 32 + d1) = [d0; d1].
Proof.
  unfold is_digit, head_digits; intros.
  repeat (apply (f_equal2 cons); [divmod|]); reflexivity.
Qed.

Lemma assemble_wf (ds : list Z) :
  length ds = 26%nat -> Forall is_digit ds -> wf_SFID (assemble ds).
Proof.
  intros Hlen Hall; rewrite assemble_by_division by assumption.
  pose proof (fun i Hi => Forall_nth26 is_digit ds i Hlen Hall Hi) as Hd.
  pose proof (group_bytes_range ds.[2] ds.[3] ds.[4] ds.[5] ds.[6] ds.[7]
                ds.[8] ds.[9]) as G1.
  pose proof (group_bytes_range ds.[10] ds.[11] ds.[12] ds.[13] ds.[14]
                ds.[15] ds.[16] ds.[17]) as G2.
  pose proof (group_bytes_range ds.[18] ds.[19] ds.[20] ds.[21] ds.[22]
                ds.[23] ds.[24] ds.[25]) as G3.
  split; [reflexivity|].
  apply Forall_cons; [apply head_byte_range; apply Hd; lia|].
  repeat (apply Forall_cons;
            [first [apply G1|apply G2|apply G3]; apply Hd; lia|]).
  apply Forall_nil.
Qed.

(** The digits of the bytes assembled from 26 digits are those digits,
    when the first has its two high bits clear. *)
Lemma digits_assemble (ds : list Z) :
  length ds = 26%nat -> Forall is_digit ds -> ds.[0] < 8 ->
  digits (assemble ds) = ds.
Proof.
  intros Hlen Hall Hfirst.
  rewrite digits_by_division by (apply assemble_wf; assumption).
  rewrite assemble_by_division by assumption.
  cbn [nth].
  rewrite !group_digits_assembled, head_digits_assembled
    by (exact Hfirst || digit_nth Hlen Hall).
  symmetry; apply list26_eta, Hlen.
Qed.

Lemma dec_digit (c : Z) : is_byte c -> dec c <> 0xFF -> is_digit (dec c).
Proof.
  intros Hc Hd.
  assert (H : (dec c =? 0xFF) || ((0 <=? dec c) && (dec c <? 32)) = true).
  { apply (below_spec
             (fun c => (dec c =? 0xFF) || ((0 <=? dec c) && (dec c <? 32)))
             256); [vm_compute; reflexivity|exact Hc]. }
  apply orb_true_iff in H as [H|H]; [apply Z.eqb_eq in H; contradiction|].
  apply andb_true_iff in H as [H1 H2]; unfold is_digit; lia.
Qed.

Lemma dec_first (c : Z) :
  is_byte c -> c <= byte_of_ascii "7" -> dec c <> 0xFF -> dec c < 8.
Proof.
  intros Hc Hle Hd.
  assert (H : negb (c <=? byte_of_ascii "7") || (dec c =? 0xFF) ||
              (dec c <? 8) = true).
  { apply (below_spec
             (fun c => negb (c <=? byte_of_ascii "7") || (dec c =? 0xFF) ||
                       (dec c <? 8)) 256); [vm_compute; reflexivity|exact Hc]. }
  apply orb_true_iff in H as [H|H]; [|lia].
  apply orb_true_iff in H as [H|H].
  - apply negb_true_iff, Z.leb_gt in H; lia.
  - apply Z.eqb_eq in H; contradiction.
Qed.

(** The canonical symbol of a decodable byte is its uppercase form. *)
Lemma canonical_upper (c : Z) :
  is_byte c -> in_symbols decodable c = true -> canonical c = upper_byte c.
Proof.
  intros Hc Hd.
  assert (H : negb (in_symbols decodable c) ||
              (canonical c =? upper_byte c) = true).
  { apply (below_spec
             (fun c => negb (in_symbols decodable c) ||
                       (canonical c =? upper_byte c)) 256);
      [vm_compute; reflexivity|exact Hc]. }
  rewrite Hd in H; apply Z.eqb_eq; exact H.
Qed.

Lemma alphabet_decodable (c : Z) :
  is_byte c -> in_symbols Encoding c = true ->
  in_symbols decodable c = true /\ upper_byte c = c.
Proof.
  intros Hc Hd.
  assert (H : negb (in_symbols Encoding c) ||
              (in_symbols decodable c && (upper_byte c =? c)) = true).
  { apply (below_spec
             (fun c => negb (in_symbols Encoding c) ||
                       (in_symbols decodable c && (upper_byte c =? c))) 256);
      [vm_compute; reflexivity|exact Hc]. }
  rewrite Hd in H; apply andb_true_iff in H as [H1 H2].
  split; [exact H1|apply Z.eqb_eq; exact H2].
Qed.

Lemma string_of_bytes_of_string (s : string) :
  string_of_bytes (bytes_of_string s) = s.
Proof.
  unfold string_of_bytes, bytes_of_string; rewrite map_map.
  rewrite (map_ext _ (fun c => c)) by apply ascii_of_byte_of_ascii.
  rewrite map_id; apply string_of_list_ascii_of_string.
Qed.

(** Decoding a text of 26 decodable bytes whose first is at most ['7'],
    strictly or not, and encoding the result gives the canonical symbols
    of the text. *)
Lemma parse_then_encode (v : list Z) (strict : bool) :
  length v = 26%nat -> Forall is_byte v -> v.[0] <= byte_of_ascii "7" ->
  Forall (fun c => in_symbols decodable c = true) v ->
  parse v strict zero_SFID = (assemble (map dec v), None) /\
  wf_SFID (assemble (map dec v)) /\
  String_ (assemble (map dec v)) = string_of_bytes (map upper_byte v).
Proof.
  intros Hlen Hbytes Hfirst Hdec.
  rewrite Forall_forall in Hbytes, Hdec.
  assert (Hvalid : Forall (fun c => dec c <> 0xFF) v).
  { apply Forall_forall; intros c Hc.
    pose proof (dec_sentinel c (Hbytes c Hc)) as E.
    rewrite (Hdec c Hc) in E; apply Z.eqb_neq; exact E. }
  assert (Hdigits : Forall is_digit (map dec v)).
  { apply Forall_forall; intros d Hd.
    apply in_map_iff in Hd as (c & <- & Hc).
    rewrite Forall_forall in Hvalid.
    apply dec_digit; [apply Hbytes|apply Hvalid]; exact Hc. }
  assert (Hlen' : length (map dec v) = 26%nat)
    by (rewrite length_map; exact Hlen).
  assert (Hhead : (map dec v).[0] < 8).
  { destruct v as [|c v]; [discriminate Hlen|]; cbn [map nth] in *.
    inversion_clear Hvalid as [|? ? Hc _].
    apply dec_first; [apply Hbytes; left; reflexivity|exact Hfirst|exact Hc]. }
  split; [apply parse_assemble; [exact Hlen|reflexivity|exact Hfirst|]|].
  { intros _; exact Hvalid. }
  split; [apply assemble_wf; assumption|].
  unfold String_; rewrite MarshalTextTo_digits by reflexivity; cbn [fst].
  rewrite digits_assemble, map_map by assumption.
  f_equal; apply map_ext_in; intros c Hc.
  apply canonical_upper; [apply Hbytes|apply Hdec]; exact Hc.
Qed.

(** X4: a canonical text decodes and encodes back to itself: for every
    string of 26 symbols of the alphabet whose first is at most ['7'],
    [ParseStrict] succeeds and [String] of the identifier is the string. *)
Theorem canonical_text_roundtrip (s : string) :
  String.length s = 26%nat ->
  (bytes_of_string s).[0] <= byte_of_ascii "7" ->
  (forall c, In c (bytes_of_string s) -> in_symbols Encoding c = true) ->
  snd (ParseStrict s) = None /\
  wf_SFID (fst (ParseStrict s)) /\
  String_ (fst (ParseStrict s)) = s.
Proof.
  intros Hlen Hfirst Halpha.
  pose proof (bytes_of_string_bytes s) as Hbytes.
  destruct (parse_then_encode (bytes_of_string s) true) as (Hp & Hwf & Hs);
    try assumption.
  - rewrite bytes_of_string_length; exact Hlen.
  - rewrite Forall_forall in Hbytes |- *; intros c Hc.
    apply alphabet_decodable; auto.
  - unfold ParseStrict; rewrite Hp; cbn [fst snd].
    split; [reflexivity|split; [exact Hwf|]].
    rewrite Hs, (map_ext_in _ (fun c => c)), map_id.
    + apply string_of_bytes_of_string.
    + rewrite Forall_forall in Hbytes; intros c Hc.
      apply alphabet_decodable; auto.
Qed.

Lemma canonical_text_roundtrip_witness :
  String_ (fst (ParseStrict "01AN4Z07BY79KA1307SR9X4MV3")) =
  "01AN4Z07BY79KA1307SR9X4MV3"%string.
Proof.
  refine (proj2 (proj2
    (canonical_text_roundtrip "01AN4Z07BY79KA1307SR9X4MV3" _ _ _))).
  - reflexivity.
  - vm_compute; discriminate.
  - intros c Hc; vm_compute in Hc.
    repeat (destruct Hc as [<-|Hc]; [reflexivity|]); destruct Hc.
Defined.

(** X5: decoding folds case.  For every string of 26 characters, each a
    symbol of the alphabet or the lowercase form of one of its letters,
    whose first is at most ['7'], [Parse] and [ParseStrict] succeed with
    the same identifier, and [String] of it is the string in uppercase. *)
Theorem text_case_folded (s : string) :
  String.length s = 26%nat ->
  (bytes_of_string s).[0] <= byte_of_ascii "7" ->
  (forall c, In c (bytes_of_string s) -> in_symbols decodable c = true) ->
  Parse s = ParseStrict s /\
  snd (Parse s) = None /\
  String_ (fst (Parse s)) =
    string_of_bytes (map upper_byte (bytes_of_string s)).
Proof.
  intros Hlen Hfirst Hdec.
  pose proof (bytes_of_string_bytes s) as Hbytes.
  assert (Hlen' : length (bytes_of_string s) = 26%nat)
    by (rewrite bytes_of_string_length; exact Hlen).
  assert (Hdec' : Forall (fun c => in_symbols decodable c = true)
                         (bytes_of_string s))
    by (apply Forall_forall; exact Hdec).
  destruct (parse_then_encode (bytes_of_string s) false Hlen' Hbytes Hfirst
              Hdec') as (Hp & _ & Hs).
  destruct (parse_then_encode (bytes_of_string s) true Hlen' Hbytes Hfirst
              Hdec') as (Hp' & _ & _).
  unfold Parse, ParseStrict; rewrite Hp, Hp'; cbn [fst snd].
  split; [reflexivity|split; [reflexivity|exact Hs]].
Qed.

Lemma text_case_folded_witness :
  String_ (fst (Parse "01an4z07by79ka1307sr9x4mv3")) =
  "01AN4Z07BY79KA1307SR9X4MV3"%string.
Proof.
  refine (proj2 (proj2
    (text_case_folded "01an4z07by79ka1307sr9x4mv3" _ _ _))).
  - reflexivity.
  - vm_compute; discriminate.
  - intros c Hc; vm_compute in Hc.
    repeat (destruct Hc as [<-|Hc]; [reflexivity|]); destruct Hc.
Defined.

(** ** Fields *)

Lemma Nonce_SetNonce (id : SFID) (n : Z) :
  length id = SFID_len -> 0 <= n <= MaxNonce ->
  Nonce (fst (SetNonce id n)) = n.
Proof.
  intros Hlen Hn; explode16 id Hlen.
  unfold SetNonce; rewrite gtb_false by lia; cbn [upd fst].
  rewrite Nonce_bytes by apply to_byte_is_byte.
  rewrite !to_byte_shr, to_byte_low by lia.
  rewrite MaxNonce_value in Hn.
  assert (H40 : n / 2 ^ 40 = 0) by (apply Z.div_small; lia).
  change (32 + 8) with 40; change (24 + 8) with 32;
    change (16 + 8) with 24; change (8 + 8) with 16.
  rewrite H40; lia.
Qed.

(** X6: a getter reads back what its setter wrote: for an argument within
    the width of the field, [Time] after [SetTime], [Nonce] after
    [SetNonce] and [SN] after [SetSN] return the argument. *)
Theorem getters_after_setters (id : SFID) (x : Z) :
  length id = SFID_len ->
  (0 <= x <= 2 ^ 48 - 1 -> Time (fst (SetTime id x)) = x) /\
  (0 <= x <= 2 ^ 40 - 1 -> Nonce (fst (SetNonce id x)) = x) /\
  (0 <= x <= 2 ^ 24 - 1 -> SN (fst (SetSN id x)) = x).
Proof.
  intros Hlen.
  rewrite <- maxTime_value, <- MaxNonce_value, <- maxSN_value.
  split; [|split]; intros Hx.
  - apply Time_SetTime; assumption.
  - apply Nonce_SetNonce; assumption.
  - apply SN_SetSN; assumption.
Qed.

Lemma getters_after_setters_witness :
  Time (fst (SetTime zero_SFID 1700000000000)) = 1700000000000.
Proof.
  refine (proj1 (getters_after_setters zero_SFID 1700000000000 _) _).
  - reflexivity.
  - lia.
Defined.

Lemma fields_of_bytes (b0 b1 b2 b3 b4 b5 b6 b7 b8 b9 b10 b11 b12 b13 b14
    b15 : Z) :
  is_byte b0 -> is_byte b1 -> is_byte b2 -> is_byte b3 -> is_byte b4 ->
  is_byte b5 -> is_byte b6 -> is_byte b7 -> is_byte b8 -> is_byte b9 ->
  is_byte b10 -> is_byte b11 -> is_byte b12 -> is_byte b13 ->
  is_byte b14 -> is_byte b15 ->
  forall id,
  id = [b0; b1; b2; b3; b4; b5; b6; b7; b8; b9; b10; b11; b12; b13;
        b14; b15] ->
  Time id = b0 * 2 ^ 40 + b1 * 2 ^ 32 + b2 * 2 ^ 24 + b3 * 2 ^ 16 +
            b4 * 2 ^ 8 + b5 /\
  Node id = b6 * 2 ^ 8 + b7 /\
  Nonce id = b8 * 2 ^ 32 + b9 * 2 ^ 24 + b10 * 2 ^ 16 + b11 * 2 ^ 8 + b12 /\
  SN id = b13 * 2 ^ 16 + b14 * 2 ^ 8 + b15.
Proof.
  intros; subst id.
  rewrite Time_bytes, Node_bytes, Nonce_bytes, SN_bytes by assumption.
  repeat split.
Qed.

Lemma fields_value (id : SFID) :
  wf_SFID id ->
  big_endian 256 id =
    Time id * 2 ^ 80 + Node id * 2 ^ 64 + Nonce id * 2 ^ 24 + SN id /\
  0 <= Time id <= 2 ^ 48 - 1 /\ 0 <= Node id <= 2 ^ 16 - 1 /\
  0 <= Nonce id <= 2 ^ 40 - 1 /\ 0 <= SN id <= 2 ^ 24 - 1.
Proof.
  intros Hwf; wf16 id Hwf.
  destruct (fields_of_bytes z z0 z1 z2 z3 z4 z5 z6 z7 z8 z9 z10 z11 z12
              z13 z14) with (id := [z; z0; z1; z2; z3; z4; z5; z6; z7; z8;
                                    z9; z10; z11; z12; z13; z14])
    as (HT & HN & HO & HS); try assumption; try reflexivity.
  rewrite HT, HN, HO, HS; unfold is_byte in *.
  cbn [big_endian length].
  change (Z.of_nat 0) with 0; change (Z.of_nat 1) with 1;
    change (Z.of_nat 2) with 2; change (Z.of_nat 3) with 3;
    change (Z.of_nat 4) with 4; change (Z.of_nat 5) with 5;
    change (Z.of_nat 6) with 6; change (Z.of_nat 7) with 7;
    change (Z.of_nat 8) with 8; change (Z.of_nat 9) with 9;
    change (Z.of_nat 10) with 10; change (Z.of_nat 11) with 11;
    change (Z.of_nat 12) with 12; change (Z.of_nat 13) with 13;
    change (Z.of_nat 14) with 14; change (Z.of_nat 15) with 15.
  repeat split; lia.
Qed.

(** X7: the four fields are the 128 bits of the identifier: its unsigned
    big-endian value is the timestamp above 80 bits, the node above 64,
    the nonce above 24 and the sequence number, and every getter returns a
    value within the width of its field. *)
Theorem fields_layout (id : SFID) :
  wf_SFID id ->
  big_endian 256 id =
    Time id * 2 ^ 80 + Node id * 2 ^ 64 + Nonce id * 2 ^ 24 + SN id /\
  0 <= Time id <= 2 ^ 48 - 1 /\ 0 <= Node id <= 2 ^ 16 - 1 /\
  0 <= Nonce id <= 2 ^ 40 - 1 /\ 0 <= SN id <= 2 ^ 24 - 1.
Proof. exact (fields_value id). Qed.

Lemma fields_layout_witness :
  big_endian 256 [1; 139; 207; 229; 104; 0; 0; 100; 0; 7; 91; 205; 21; 0; 0; 255] =
  Time [1; 139; 207; 229; 104; 0; 0; 100; 0; 7; 91; 205; 21; 0; 0; 255] * 2 ^ 80 +
  Node [1; 139; 207; 229; 104; 0; 0; 100; 0; 7; 91; 205; 21; 0; 0; 255] * 2 ^ 64 +
  Nonce [1; 139; 207; 229; 104; 0; 0; 100; 0; 7; 91; 205; 21; 0; 0; 255] * 2 ^ 24 +
  SN [1; 139; 207; 229; 104; 0; 0; 100; 0; 7; 91; 205; 21; 0; 0; 255].
Proof.
  refine (proj1 (fields_layout
    [1; 139; 207; 229; 104; 0; 0; 100; 0; 7; 91; 205; 21; 0; 0; 255] _)).
  concrete_wf.
Defined.

Ltac byte_of_sum :=
  unfold to_byte, shr; rewrite ?Z.shiftr_div_pow2 by lia; divmod.

Lemma time_bytes_back (b0 b1 b2 b3 b4 b5 t : Z) :
  is_byte b0 -> is_byte b1 -> is_byte b2 ->
  is_byte b3 -> is_byte b4 -> is_byte b5 ->
  t = b0 * 2 ^ 40 + b1 * 2 ^ 32 + b2 * 2 ^ 24 + b3 * 2 ^ 16 + b4 * 2 ^ 8 + b5 ->
  [to_byte (shr t 40); to_byte (shr t 32); to_byte (shr t 24);
   to_byte (shr t 16); to_byte (shr t 8); to_byte t] =
  [b0; b1; b2; b3; b4; b5].
Proof.
  unfold is_byte; intros H0 H1 H2 H3 H4 H5 ->.
  repeat (apply (f_equal2 cons); [byte_of_sum|]); reflexivity.
Qed.

Lemma node_bytes_back (b6 b7 n : Z) :
  is_byte b6 -> is_byte b7 -> n = b6 * 2 ^ 8 + b7 ->
  [to_byte (shr n 8); to_byte n] = [b6; b7].
Proof.
  unfold is_byte; intros H6 H7 ->.
  repeat (apply (f_equal2 cons); [byte_of_sum|]); reflexivity.
Qed.

Lemma nonce_bytes_back (b8 b9 b10 b11 b12 n : Z) :
  is_byte b8 -> is_byte b9 -> is_byte b10 -> is_byte b11 -> is_byte b12 ->
  n = b8 * 2 ^ 32 + b9 * 2 ^ 24 + b10 * 2 ^ 16 + b11 * 2 ^ 8 + b12 ->
  nonce_bytes n = [b8; b9; b10; b11; b12].
Proof.
  unfold is_byte; intros H8 H9 H10 H11 H12 ->.
  unfold nonce_bytes; rewrite gtb_false by (rewrite MaxNonce_value; lia).
  repeat (apply (f_equal2 cons); [byte_of_sum|]); reflexivity.
Qed.

Lemma sn_bytes_back (b13 b14 b15 n : Z) :
  is_byte b13 -> is_byte b14 -> is_byte b15 ->
  n = b13 * 2 ^ 16 + b14 * 2 ^ 8 + b15 ->
  [to_byte (shr n 16); to_byte (shr n 8); to_byte n] = [b13; b14; b15].
Proof.
  unfold is_byte; intros H3 H4 H5 ->.
  repeat (apply (f_equal2 cons); [byte_of_sum|]); reflexivity.
Qed.

Lemma identifier_of_fields (id : SFID) :
  wf_SFID id -> identifier (Node id) (Nonce id) (Time id) (SN id) = id.
Proof.
  intros Hwf; wf16 id Hwf.
  destruct (fields_of_bytes z z0 z1 z2 z3 z4 z5 z6 z7 z8 z9 z10 z11 z12
              z13 z14) with (id := [z; z0; z1; z2; z3; z4; z5; z6; z7; z8;
                                    z9; z10; z11; z12; z13; z14])
    as (HT & HN & HO & HS); try assumption; try reflexivity.
  rewrite identifier_bytes.
  - rewrite (time_bytes_back z z0 z1 z2 z3 z4), (node_bytes_back z5 z6),
      (nonce_bytes_back z7 z8 z9 z10 z11), (sn_bytes_back z12 z13 z14)
      by assumption.
    reflexivity.
  - rewrite HT, maxTime_value; unfold is_byte in *; lia.
  - rewrite HS, maxSN_value; unfold is_byte in *; lia.
Qed.

(** X8: an identifier is determined by its four fields: writing the
    values of [Node], [Nonce], [Time] and [SN] into a zero identifier, as
    [Next] does, rebuilds it, and two identifiers with the same four
    fields are the same. *)
Theorem fields_determine_identifier (a b : SFID) :
  wf_SFID a -> wf_SFID b ->
  fst (SetSN (fst (SetTime (fst (SetNonce (SetNode zero_SFID (Node a))
                                          (Nonce a)))
                           (Time a)))
             (SN a)) = a /\
  (Time a = Time b -> Node a = Node b -> Nonce a = Nonce b ->
   SN a = SN b -> a = b).
Proof.
  intros Ha Hb; split.
  - apply (identifier_of_fields a Ha).
  - intros HT HN HO HS.
    rewrite <- (identifier_of_fields a Ha), <- (identifier_of_fields b Hb).
    congruence.
Qed.

Lemma fields_determine_identifier_witness :
  fst (SetSN (fst (SetTime (fst (SetNonce (SetNode zero_SFID
    (Node [1; 139; 207; 229; 104; 0; 0; 100; 0; 7; 91; 205; 21; 0; 0; 255]))
    (Nonce [1; 139; 207; 229; 104; 0; 0; 100; 0; 7; 91; 205; 21; 0; 0; 255])))
    (Time [1; 139; 207; 229; 104; 0; 0; 100; 0; 7; 91; 205; 21; 0; 0; 255])))
    (SN [1; 139; 207; 229; 104; 0; 0; 100; 0; 7; 91; 205; 21; 0; 0; 255])) =
  [1; 139; 207; 229; 104; 0; 0; 100; 0; 7; 91; 205; 21; 0; 0; 255].
Proof.
  refine (proj1 (fields_determine_identifier
    [1; 139; 207; 229; 104; 0; 0; 100; 0; 7; 91; 205; 21; 0; 0; 255]
    zero_SFID _ _)).
  - concrete_wf.
  - split; [reflexivity|].
    repeat (apply Forall_cons; [unfold is_byte; lia|]); apply Forall_nil.
Defined.

(** ** The order of identifiers *)

Lemma bytes_Compare_eq (a b : list Z) : bytes_Compare a b = 0 <-> a = b.
Proof.
  revert b; induction a as [|x a IH]; intros [|y b]; cbn [bytes_Compare];
    try (split; [discriminate|discriminate]); [tauto|].
  destruct (Z.ltb_spec x y); [split; [discriminate|intros [= -> _]; lia]|].
  destruct (Z.ltb_spec y x); [split; [discriminate|intros [= -> _]; lia]|].
  rewrite IH; split.
  - intros ->; f_equal; lia.
  - intros [= _ ->]; reflexivity.
Qed.

Lemma bytes_Compare_swap (a b : list Z) :
  bytes_Compare b a = - bytes_Compare a b.
Proof.
  revert b; induction a as [|x a IH]; intros [|y b]; cbn [bytes_Compare];
    try reflexivity.
  destruct (Z.ltb_spec x y), (Z.ltb_spec y x); try lia; try reflexivity.
  apply IH.
Qed.

Lemma bytes_Compare_trans (a b c : list Z) :
  bytes_Compare a b = -1 -> bytes_Compare b c = -1 -> bytes_Compare a c = -1.
Proof.
  revert b c; induction a as [|x a IH]; intros [|y b] [|z c];
    cbn [bytes_Compare]; try discriminate; try reflexivity.
  destruct (Z.ltb_spec x y), (Z.ltb_spec y x), (Z.ltb_spec y z),
    (Z.ltb_spec z y), (Z.ltb_spec x z), (Z.ltb_spec z x);
    try lia; try discriminate; try reflexivity.
  apply IH.
Qed.

(** X9: [Compare] is a strict total order up to equality: it returns 0
    exactly on equal identifiers, swapping the arguments negates the
    result, and "less than" is transitive. *)
Theorem Compare_total_order (a b c : SFID) :
  (Compare a b = 0 <-> a = b) /\
  Compare b a = - Compare a b /\
  (Compare a b = -1 -> Compare b c = -1 -> Compare a c = -1).
Proof.
  unfold Compare; split; [apply bytes_Compare_eq|].
  split; [apply bytes_Compare_swap|apply bytes_Compare_trans].
Qed.

Lemma cmp_major (w x y lo lo' : Z) :
  0 <= lo < w -> 0 <= lo' < w -> x <> y ->
  cmp (x * w + lo) (y * w + lo') = cmp x y.
Proof.
  intros Hlo Hlo' Hne.
  destruct (Z.lt_total x y) as [H|[H|H]]; [|contradiction|].
  - rewrite !cmp_lt by nia; reflexivity.
  - rewrite !cmp_gt by nia; reflexivity.
Qed.

(** X10: identifiers sort by time first: [Compare] is the comparison of
    the timestamps when they differ, else of the nodes, else of the
    nonces, else of the sequence numbers. *)
Theorem Compare_by_fields (a b : SFID) :
  wf_SFID a -> wf_SFID b -> Compare a b = compare_fields a b.
Proof.
  intros Ha Hb; rewrite Compare_value by assumption.
  destruct (fields_value a Ha) as (Va & Ta & Na & Oa & Sa).
  destruct (fields_value b Hb) as (Vb & Tb & Nb & Ob & Sb).
  rewrite Va, Vb; unfold compare_fields.
  destruct (Z.eqb_spec (Time a) (Time b)) as [ET|ET]; cbn [negb].
  - rewrite ET.
    destruct (Z.eqb_spec (Node a) (Node b)) as [EN|EN]; cbn [negb].
    + rewrite EN.
      destruct (Z.eqb_spec (Nonce a) (Nonce b)) as [EO|EO]; cbn [negb].
      * rewrite EO; apply cmp_shift.
      * rewrite <- !Z.add_assoc, cmp_shift, cmp_shift.
        apply cmp_major; [lia|lia|exact EO].
    + rewrite <- !Z.add_assoc, cmp_shift.
      apply cmp_major; [lia|lia|exact EN].
  - rewrite <- !Z.add_assoc.
    apply cmp_major; [lia|lia|exact ET].
Qed.

Lemma Compare_by_fields_witness :
  Compare [1; 139; 207; 229; 104; 0; 0; 100; 0; 7; 91; 205; 21; 0; 0; 255]
          [1; 139; 207; 229; 104; 1; 0; 100; 0; 7; 91; 205; 21; 0; 0; 0] =
  compare_fields
          [1; 139; 207; 229; 104; 0; 0; 100; 0; 7; 91; 205; 21; 0; 0; 255]
          [1; 139; 207; 229; 104; 1; 0; 100; 0; 7; 91; 205; 21; 0; 0; 0].
Proof.
  refine (Compare_by_fields _ _ _ _); concrete_wf.
Defined.

(** ** Setters in any order *)

(** X11: setters of different fields commute: writing two fields of an
    identifier in either order gives the same identifier, whether or not
    the arguments are in range. *)
Theorem setters_commute (id : SFID) (t n o s : Z) :
  length id = SFID_len ->
  fst (SetTime (SetNode id n) t) = SetNode (fst (SetTime id t)) n /\
  fst (SetTime (fst (SetNonce id o)) t) =
    fst (SetNonce (fst (SetTime id t)) o) /\
  fst (SetTime (fst (SetSN id s)) t) = fst (SetSN (fst (SetTime id t)) s) /\
  fst (SetNonce (SetNode id n) o) = SetNode (fst (SetNonce id o)) n /\
  fst (SetSN (SetNode id n) s) = SetNode (fst (SetSN id s)) n /\
  fst (SetSN (fst (SetNonce id o)) s) = fst (SetNonce (fst (SetSN id s)) o).
Proof.
  intros Hlen; explode16 id Hlen.
  unfold SetTime, SetNode, SetNonce, SetSN.
  destruct (t >? maxTime), (o >? MaxNonce), (s >? maxSN);
    repeat split; reflexivity.
Qed.

Lemma setters_commute_witness :
  fst (SetTime (SetNode zero_SFID 100) 1700000000000) =
  SetNode (fst (SetTime zero_SFID 1700000000000)) 100.
Proof.
  refine (proj1 (setters_commute zero_SFID 1700000000000 100 0 0 _)).
  reflexivity.
Defined.

(** ** The time of an identifier *)

(** X12: [Timestamp] hands [time.Unix] the instant [Time] milliseconds
    after the epoch: the seconds and nanoseconds are not negative, the
    nanoseconds are a whole number of milliseconds below one second, and
    together they are exactly [Time] milliseconds; no conversion wraps. *)
Theorem Timestamp_instant (id : SFID) :
  wf_SFID id ->
  0 <= fst (Timestamp id) /\
  0 <= snd (Timestamp id) < 1000000000 /\
  snd (Timestamp id) mod 1000000 = 0 /\
  fst (Timestamp id) * 1000000000 + snd (Timestamp id) =
    Time id * 1000000.
Proof.
  intros Hwf.
  destruct (fields_value id Hwf) as (_ & HT & _).
  unfold Timestamp; cbn [fst snd].
  assert (Hs : 0 <= Time id / 1000 < 2 ^ 48) by divmod.
  assert (Hn : 0 <= Time id mod 1000 * 1000000 < 1000000000) by divmod.
  rewrite (to_int64_small (Time id / 1000)) by lia.
  rewrite to_uint64_small, to_int64_small by lia.
  repeat split; divmod.
Qed.

Lemma Timestamp_instant_witness :
  fst (Timestamp [1; 139; 207; 229; 104; 0; 0; 100; 0; 7; 91; 205; 21; 0; 0; 255])
    * 1000000000 +
  snd (Timestamp [1; 139; 207; 229; 104; 0; 0; 100; 0; 7; 91; 205; 21; 0; 0; 255]) =
  Time [1; 139; 207; 229; 104; 0; 0; 100; 0; 7; 91; 205; 21; 0; 0; 255] * 1000000.
Proof.
  refine (proj2 (proj2 (proj2 (Timestamp_instant
    [1; 139; 207; 229; 104; 0; 0; 100; 0; 7; 91; 205; 21; 0; 0; 255] _)))).
  concrete_wf.
Defined.

(** ** Parsing that panics *)

Lemma parse_cases (v : list Z) (strict : bool) (id : SFID) :
  (length v <> 26%nat /\ parse v strict id = (id, Some ErrDataSize)) \/
  (length v = 26%nat /\ strict = true /\
   (exists c, In c v /\ dec c = 0xFF) /\
   parse v strict id = (id, Some ErrInvalidCharacters)) \/
  (length v = 26%nat /\
   (strict = true -> forall c, In c v -> dec c <> 0xFF) /\
   v.[0] > byte_of_ascii "7" /\ parse v strict id = (id, Some ErrOverflow)) \/
  (length v = 26%nat /\
   (strict = true -> forall c, In c v -> dec c <> 0xFF) /\
   v.[0] <= byte_of_ascii "7" /\ snd (parse v strict id) = None).
Proof.
  destruct (Nat.eq_dec (length v) 26) as [Hlen|Hlen].
  2:{ left; split; [exact Hlen|]; unfold parse.
      destruct (Nat.eqb_spec (length v) EncodedSize); [contradiction|].
      reflexivity. }
  right; unfold parse.
  rewrite strict_check by exact Hlen.
  rewrite Hlen; change (negb (26 =? EncodedSize)%nat) with false; cbv iota.
  destruct strict; cbn [andb].
  - destruct (existsb (fun c => dec c =? 0xFF) v) eqn:E.
    + left; repeat split; auto.
      apply existsb_exists in E as (c & Hin & Hc).
      exists c; split; [exact Hin|apply Z.eqb_eq; exact Hc].
    + right.
      assert (Hok : forall c, In c v -> dec c <> 0xFF).
      { intros c Hin Hc.
        assert (existsb (fun c => dec c =? 0xFF) v = true)
          by (apply existsb_exists; exists c; split;
              [exact Hin|apply Z.eqb_eq; exact Hc]).
        congruence. }
      destruct (Z.gtb_spec v.[0] (byte_of_ascii "7")).
      * left; repeat split; auto; lia.
      * right; repeat split; auto.
  - right.
    destruct (Z.gtb_spec v.[0] (byte_of_ascii "7")).
    + left; repeat split; auto; try discriminate; lia.
    + right; repeat split; auto; discriminate.
Qed.

(** X13: when the panicking parsers panic.  [MustParse] panics with the
    size error exactly on a string whose length is not 26, with the
    overflow error exactly on a string of length 26 whose first byte
    exceeds ['7'], and returns otherwise; [MustParseStrict] panics with
    the invalid-character error exactly on a string of length 26 with a
    byte that [dec] does not decode; neither panics on the text of an
    identifier, and both return that identifier. *)
Theorem MustParse_panics (s : string) :
  (MustParse s = Panics ErrDataSize <-> String.length s <> 26%nat) /\
  (MustParse s = Panics ErrOverflow <->
   String.length s = 26%nat /\
   (bytes_of_string s).[0] > byte_of_ascii "7") /\
  ((exists id, MustParse s = Returns id) <->
   String.length s = 26%nat /\
   (bytes_of_string s).[0] <= byte_of_ascii "7") /\
  (MustParseStrict s = Panics ErrInvalidCharacters <->
   String.length s = 26%nat /\
   exists c, In c (bytes_of_string s) /\ dec c = 0xFF) /\
  (forall x, wf_SFID x ->
     MustParse (String_ x) = Returns x /\
     MustParseStrict (String_ x) = Returns x).
Proof.
  pose proof (parse_cases (bytes_of_string s) false zero_SFID) as Hc.
  pose proof (parse_cases (bytes_of_string s) true zero_SFID) as Hs.
  rewrite bytes_of_string_length in Hc, Hs.
  unfold MustParse, MustParseStrict, Parse, ParseStrict.
  split; [|split; [|split; [|split]]].
  - destruct Hc as [(Hl & ->)|[(_ & Hf & _)|[(Hl & _ & Hg & ->)|(Hl & _ & Hg & He)]]];
      try discriminate Hf.
    + tauto.
    + split; [discriminate|contradiction].
    + destruct (parse _ false _) as [id [e|]]; cbn [snd] in He;
        [discriminate He|].
      split; [discriminate|contradiction].
  - destruct Hc as [(Hl & ->)|[(_ & Hf & _)|[(Hl & _ & Hg & ->)|(Hl & _ & Hg & He)]]];
      try discriminate Hf.
    + split; [discriminate|tauto].
    + tauto.
    + destruct (parse _ false _) as [id [e|]]; cbn [snd] in He;
        [discriminate He|].
      split; [discriminate|lia].
  - destruct Hc as [(Hl & ->)|[(_ & Hf & _)|[(Hl & _ & Hg & ->)|(Hl & _ & Hg & He)]]];
      try discriminate Hf.
    + split; [intros [id H]; discriminate H|tauto].
    + split; [intros [id H]; discriminate H|lia].
    + destruct (parse _ false _) as [id [e|]]; cbn [snd] in He;
        [discriminate He|].
      split; [tauto|intros _; exists id; reflexivity].
  - destruct Hs as [(Hl & ->)|[(Hl & _ & Hex & ->)|[(Hl & Hok & Hg & ->)|(Hl & Hok & Hg & He)]]].
    + split; [discriminate|tauto].
    + tauto.
    + split; [discriminate|].
      intros (_ & c & Hin & Hd); destruct (Hok eq_refl c Hin Hd).
    + destruct (parse _ true _) as [id [e|]]; cbn [snd] in He;
        [discriminate He|].
      split; [discriminate|].
      intros (_ & c & Hin & Hd); destruct (Hok eq_refl c Hin Hd).
  - intros x Hwf; rewrite bytes_of_String by exact Hwf.
    rewrite !parse_text by (exact Hwf || reflexivity).
    split; reflexivity.
Qed.

(** ** The database value *)

(** X14: [Value] never fails: for every identifier, the zero identifier
    included, it returns the 16 bytes of the identifier with no error, and
    [Scan] of that value gives the identifier back. *)
Theorem Value_never_fails (id dst : SFID) :
  length id = SFID_len -> length dst = SFID_len ->
  Value id = (id, None) /\
  Scan dst (SrcBytes (fst (Value id))) = (id, None).
Proof.
  intros Hid Hdst; unfold Value.
  rewrite MarshalBinary_bytes by exact Hid.
  split; [reflexivity|].
  cbn [fst Scan]; apply UnmarshalBinary_bytes; assumption.
Qed.

Lemma Value_never_fails_witness :
  Value zero_SFID = (zero_SFID, None).
Proof.
  refine (proj1 (Value_never_fails zero_SFID zero_SFID _ _)); reflexivity.
Defined.

(** ** What [Next] writes into an identifier *)

Lemma Next_locked_keeps (clock : nat -> Z) (fuel : nat)
    (s s' : SnowflakePro) (k k' : nat) :
  Next_locked clock fuel s k = Some (s', k') ->
  node s' = node s /\ nonce s' = nonce s.
Proof.
  unfold Next_locked.
  destruct (to_uint64 (clock k) <=? tms s).
  - cbn [sn tms node nonce].
    destruct (Z.land (to_uint32 (sn s + 1)) SNMask =? 0).
    + destruct (until clock fuel _ (S k)); [|discriminate].
      intros [= <- _]; split; reflexivity.
    + intros [= <- _]; split; reflexivity.
  - intros [= <- _]; split; reflexivity.
Qed.

(** Node and nonce of the identifier [Next] builds, whatever becomes of
    the timestamp and the sequence number. *)
Lemma identifier_Node_Nonce (nd nc t n : Z) :
  0 <= nd < 2 ^ 16 -> 0 <= nc <= MaxNonce ->
  length (identifier nd nc t n) = SFID_len /\
  Node (identifier nd nc t n) = nd /\ Nonce (identifier nd nc t n) = nc.
Proof.
  intros Hnd Hnc; unfold identifier, SetTime, SetSN, SetNonce, SetNode.
  rewrite (gtb_false nc) by lia.
  rewrite MaxNonce_value in Hnc.
  assert (H16 : nd / 2 ^ 16 = 0) by (apply Z.div_small; lia).
  assert (H40 : nc / 2 ^ 40 = 0) by (apply Z.div_small; lia).
  destruct (t >? maxTime), (n >? maxSN); cbn [fst upd zero_SFID repeat SFID_len];
    (split; [reflexivity|]);
    rewrite Node_bytes, Nonce_bytes by apply to_byte_is_byte;
    rewrite !to_byte_shr, !to_byte_low by lia;
    change (32 + 8) with 40; change (24 + 8) with 32;
    change (16 + 8) with 24; change (8 + 8) with 16;
    rewrite H16, H40; split; lia.
Qed.

(** X15: [Next] always stamps the node and the nonce of its generator,
    whatever the wall clock reads: for a node of 16 bits and a nonce
    within [MaxNonce], the identifier returned has 16 bytes, [Node] and
    [Nonce] read the generator's node and nonce, and the call leaves both
    unchanged in the generator. *)
Theorem Next_stamps_node_and_nonce (clock : nat -> Z) (fuel : nat)
    (s s' : SnowflakePro) (k k' : nat) (id : SFID) :
  0 <= node s < 2 ^ 16 -> 0 <= nonce s <= MaxNonce ->
  Next clock fuel s k = Some (s', k', id) ->
  length id = SFID_len /\ Node id = node s /\ Nonce id = nonce s /\
  node s' = node s /\ nonce s' = nonce s.
Proof.
  intros Hnode Hnonce Hnext.
  destruct (Next_identifier _ _ _ _ _ _ _ Hnext) as [Hlocked ->].
  destruct (Next_locked_keeps _ _ _ _ _ _ Hlocked) as [Hn Ho].
  destruct (identifier_Node_Nonce (node s) (nonce s) (tms s') (sn s')
              Hnode Hnonce) as (Hlen & HN & HO).
  repeat split; assumption.
Qed.

Lemma Next_stamps_node_and_nonce_witness :
  Node [1; 139; 207; 229; 104; 0; 0; 100; 0; 7; 91; 205; 21; 0; 0; 0] = 100.
Proof.
  refine (proj1 (proj2
    (Next_stamps_node_and_nonce (fun _ => 1700000000000) 0
       {| sn := 0; node := 100; nonce := 123456789; tms := 0 |}
       {| sn := 0; node := 100; nonce := 123456789; tms := 1700000000000 |}
       0 1 [1; 139; 207; 229; 104; 0; 0; 100; 0; 7; 91; 205; 21; 0; 0; 0]
       _ _ _))).
  - cbn [node]; lia.
  - cbn [nonce]; rewrite MaxNonce_value; lia.
  - reflexivity.
Defined.

(** X16: identifiers of generators that differ in node or in nonce never
    collide, whatever their clocks and counters: two calls of [Next] on
    generators with different (node, nonce) return different
    identifiers. *)
Theorem Next_no_collision_across_generators (clock1 clock2 : nat -> Z)
    (fuel1 fuel2 : nat) (s1 s2 s1' s2' : SnowflakePro)
    (k1 k2 k1' k2' : nat) (id1 id2 : SFID) :
  0 <= node s1 < 2 ^ 16 -> 0 <= nonce s1 <= MaxNonce ->
  0 <= node s2 < 2 ^ 16 -> 0 <= nonce s2 <= MaxNonce ->
  node s1 <> node s2 \/ nonce s1 <> nonce s2 ->
  Next clock1 fuel1 s1 k1 = Some (s1', k1', id1) ->
  Next clock2 fuel2 s2 k2 = Some (s2', k2', id2) ->
  id1 <> id2.
Proof.
  intros Hn1 Ho1 Hn2 Ho2 Hdiff Hnext1 Hnext2 Heq.
  destruct (Next_identifier _ _ _ _ _ _ _ Hnext1) as [_ E1].
  destruct (Next_identifier _ _ _ _ _ _ _ Hnext2) as [_ E2].
  destruct (identifier_Node_Nonce (node s1) (nonce s1) (tms s1') (sn s1')
              Hn1 Ho1) as (_ & HN1 & HO1).
  destruct (identifier_Node_Nonce (node s2) (nonce s2) (tms s2') (sn s2')
              Hn2 Ho2) as (_ & HN2 & HO2).
  rewrite <- E1 in HN1, HO1; rewrite <- E2 in HN2, HO2.
  rewrite Heq in HN1, HO1.
  destruct Hdiff as [Hd|Hd]; apply Hd; congruence.
Qed.

Lemma Next_no_collision_across_generators_witness :
  [1; 139; 207; 229; 104; 0; 0; 100; 0; 7; 91; 205; 21; 0; 0; 0] <>
  [1; 139; 207; 229; 104; 0; 0; 101; 0; 7; 91; 205; 21; 0; 0; 0].
Proof.
  refine (Next_no_collision_across_generators
    (fun _ => 1700000000000) (fun _ => 1700000000000) 0 0
    {| sn := 0; node := 100; nonce := 123456789; tms := 0 |}
    {| sn := 0; node := 101; nonce := 123456789; tms := 0 |}
    {| sn := 0; node := 100; nonce := 123456789; tms := 1700000000000 |}
    {| sn := 0; node := 101; nonce := 123456789; tms := 1700000000000 |}
    0 0 1 1 _ _ _ _ _ _ _ _ _).
  - cbn [node]; lia.
  - cbn [nonce]; rewrite MaxNonce_value; lia.
  - cbn [node]; lia.
  - cbn [nonce]; rewrite MaxNonce_value; lia.
  - left; cbn [node]; lia.
  - reflexivity.
  - reflexivity.
Defined.

(** ** The generator between calls *)

(** A generator made by [NewSnowflakePro] keeps its counters within their
    fields through every sequence of calls, when the clock reads
    timestamps of the field. *)
Lemma reachable_ok (clock : nat -> Z) (nodeid nonce0 : Z)
    (g0 : SnowflakePro) (k0 : nat) (ids : list SFID)
    (g : SnowflakePro) (k : nat) :
  (forall i, 0 <= clock i <= maxTime) ->
  NewSnowflakePro nodeid nonce0 = (Some g0, None) ->
  calls clock g0 k0 ids g k ->
  gen_ok g.
Proof.
  intros Hclock Hnew Hcalls.
  pose proof (NewSnowflakePro_ok _ _ _ Hnew) as Hok.
  apply (calls_sorted clock Hclock _ _ _ _ _ Hcalls Hok).
Qed.

(** X17: the identifier [Next] returns carries the counters the generator
    has just recorded: for a generator made by [NewSnowflakePro], after any
    calls, with clock readings between 0 and [2^48 - 1], [Time] of the
    identifier is the generator's timestamp and [SN] its sequence number
    after the call, and both are within their fields. *)
Theorem Next_identifier_counters (clock : nat -> Z) (nodeid nonce0 : Z)
    (g0 : SnowflakePro) (k0 : nat) (ids : list SFID)
    (g : SnowflakePro) (k : nat) (fuel : nat)
    (g' : SnowflakePro) (k' : nat) (id : SFID) :
  (forall i, 0 <= clock i <= maxTime) ->
  NewSnowflakePro nodeid nonce0 = (Some g0, None) ->
  calls clock g0 k0 ids g k ->
  Next clock fuel g k = Some (g', k', id) ->
  Time id = tms g' /\ SN id = sn g' /\
  0 <= tms g' <= 2 ^ 48 - 1 /\ 0 <= sn g' <= 2 ^ 24 - 1.
Proof.
  intros Hclock Hnew Hcalls Hnext.
  pose proof (reachable_ok _ _ _ _ _ _ _ _ Hclock Hnew Hcalls) as Hok.
  destruct (Next_identifier _ _ _ _ _ _ _ Hnext) as [Hlocked ->].
  destruct (Next_locked_step clock Hclock _ _ _ _ _ Hok Hlocked)
    as (Hok' & _).
  destruct (gen_ok_maxSN g' Hok') as [Ht Hs].
  rewrite identifier_Time, identifier_SN by assumption.
  rewrite maxTime_value in Ht; rewrite maxSN_value in Hs.
  repeat split; lia.
Qed.

Lemma Next_identifier_counters_witness :
  Time [1; 139; 207; 229; 104; 0; 0; 100; 0; 7; 91; 205; 21; 0; 0; 0] =
  tms {| sn := 0; node := 100; nonce := 123456789; tms := 1700000000000 |}.
Proof.
  refine (proj1
    (Next_identifier_counters (fun _ => 1700000000000) 100 123456789
       {| sn := 0; node := 100; nonce := 123456789; tms := 0 |} 0 []
       {| sn := 0; node := 100; nonce := 123456789; tms := 0 |} 0 0
       {| sn := 0; node := 100; nonce := 123456789; tms := 1700000000000 |}
       1 [1; 139; 207; 229; 104; 0; 0; 100; 0; 7; 91; 205; 21; 0; 0; 0]
       _ _ _ _)).
  - intros _; rewrite maxTime_value; lia.
  - reflexivity.
  - apply calls_none.
  - reflexivity.
Defined.

(** X18: how the counters move in one call.  For a generator made by
    [NewSnowflakePro], after any calls, with clock readings between 0 and
    [2^48 - 1]: the timestamp never decreases; when it stays, the sequence
    number goes up by one; when it changes, the sequence number is 0; and
    it changes either to the reading of the clock, or by one millisecond
    when the sequence number was [2^24 - 1]. *)
Theorem Next_counters_step (clock : nat -> Z) (nodeid nonce0 : Z)
    (g0 : SnowflakePro) (k0 : nat) (ids : list SFID)
    (g : SnowflakePro) (k : nat) (fuel : nat)
    (g' : SnowflakePro) (k' : nat) (id : SFID) :
  (forall i, 0 <= clock i <= maxTime) ->
  NewSnowflakePro nodeid nonce0 = (Some g0, None) ->
  calls clock g0 k0 ids g k ->
  Next clock fuel g k = Some (g', k', id) ->
  tms g <= tms g' /\
  (tms g' = tms g -> sn g' = sn g + 1) /\
  (tms g' <> tms g -> sn g' = 0) /\
  (tms g' <> tms g ->
   (tms g' = clock k /\ tms g < clock k) \/
   (tms g' = tms g + 1 /\ sn g = 2 ^ 24 - 1 /\ clock k <= tms g)).
Proof.
  intros Hclock Hnew Hcalls Hnext.
  pose proof (reachable_ok _ _ _ _ _ _ _ _ Hclock Hnew Hcalls) as Hok.
  destruct (Next_identifier _ _ _ _ _ _ _ Hnext) as [Hlocked _].
  destruct (Next_locked_cases clock Hclock _ _ _ _ _ Hok Hlocked)
    as (_ & _ & Hc).
  rewrite SNMask_value in Hc.
  destruct Hc as [Hc|[Hc|Hc]]; repeat split; intros; try lia.
Qed.

Lemma Next_counters_step_witness :
  tms {| sn := 0; node := 100; nonce := 123456789; tms := 0 |} <=
  tms {| sn := 0; node := 100; nonce := 123456789; tms := 1700000000000 |}.
Proof.
  refine (proj1
    (Next_counters_step (fun _ => 1700000000000) 100 123456789
       {| sn := 0; node := 100; nonce := 123456789; tms := 0 |} 0 []
       {| sn := 0; node := 100; nonce := 123456789; tms := 0 |} 0 0
       {| sn := 0; node := 100; nonce := 123456789; tms := 1700000000000 |}
       1 [1; 139; 207; 229; 104; 0; 0; 100; 0; 7; 91; 205; 21; 0; 0; 0]
       _ _ _ _)).
  - intros _; rewrite maxTime_value; lia.
  - reflexivity.
  - apply calls_none.
  - reflexivity.
Defined.

(** X19: [Next] waits only when the sequence is exhausted.  For a
    generator made by [NewSnowflakePro], after any calls, with clock
    readings between 0 and [2^48 - 1]: the timestamp of a call is never
    behind the reading of the clock the call started with; a call that
    reads the clock more than once started with the sequence number
    [2^24 - 1] within the recorded millisecond, and its last reading has
    reached the new timestamp; and unless the call starts that way it
    returns after one reading, without waiting. *)
Theorem Next_waits_only_when_exhausted (clock : nat -> Z)
    (nodeid nonce0 : Z) (g0 : SnowflakePro) (k0 : nat) (ids : list SFID)
    (g : SnowflakePro) (k : nat) :
  (forall i, 0 <= clock i <= maxTime) ->
  NewSnowflakePro nodeid nonce0 = (Some g0, None) ->
  calls clock g0 k0 ids g k ->
  (forall fuel g' k' id,
     Next clock fuel g k = Some (g', k', id) ->
     clock k <= tms g' /\
     (k' = S k \/
      (sn g = 2 ^ 24 - 1 /\ clock k <= tms g /\ (S k < k')%nat /\
       tms g' <= clock (k' - 1)%nat))) /\
  (sn g < 2 ^ 24 - 1 \/ tms g < clock k ->
   exists g' id, Next clock 0 g k = Some (g', S k, id)).
Proof.
  intros Hclock Hnew Hcalls.
  pose proof (reachable_ok _ _ _ _ _ _ _ _ Hclock Hnew Hcalls) as Hok.
  split.
  - intros fuel g' k' id Hnext.
    destruct (Next_identifier _ _ _ _ _ _ _ Hnext) as [Hlocked _].
    destruct (Next_locked_cases clock Hclock _ _ _ _ _ Hok Hlocked)
      as (_ & _ & Hc).
    rewrite SNMask_value in Hc.
    destruct Hc as [Hc|[Hc|Hc]].
    + split; [lia|left; tauto].
    + split; [lia|left; tauto].
    + split; [lia|right; repeat split; lia].
  - intros Hfree.
    destruct (Z.lt_ge_cases (tms g) (clock k)) as [Hlt|Hge].
    + pose proof (Next_locked_fresh clock 0 g k (Hclock k) Hlt) as Hl.
      do 2 eexists; unfold Next; rewrite Hl; reflexivity.
    + assert (Hsn : sn g < SNMask) by (rewrite SNMask_value; lia).
      pose proof (Hclock k) as Hk.
      pose proof (Next_locked_same clock 0 g k Hok ltac:(lia) Hsn) as Hl.
      do 2 eexists; unfold Next; rewrite Hl; reflexivity.
Qed.

Lemma Next_waits_only_when_exhausted_witness :
  exists g' id,
    Next (fun _ => 1700000000000) 0
         {| sn := 0; node := 100; nonce := 123456789; tms := 0 |} 0 =
    Some (g', 1%nat, id).
Proof.
  refine (proj2
    (Next_waits_only_when_exhausted (fun _ => 1700000000000) 100 123456789
       {| sn := 0; node := 100; nonce := 123456789; tms := 0 |} 0 []
       {| sn := 0; node := 100; nonce := 123456789; tms := 0 |} 0
       _ _ _) _).
  - intros _; rewrite maxTime_value; lia.
  - reflexivity.
  - apply calls_none.
  - left; cbn [sn]; lia.
Defined.

(** ** Waiting for the clock *)

(** X20: [until] returns right after the first reading of the clock that
    has reached the target.  With the target and the readings non-negative
    [int64] values: [until] returns having made the readings [k] to
    [k' - 1] exactly when that takes at most [fuel] readings, reading
    [k' - 1] has reached the target, and no reading before it has. *)
Theorem until_first_reading (clock : nat -> Z) (fuel : nat) (T : Z)
    (k k' : nat) :
  (forall i, 0 <= clock i < 2 ^ 63) -> 0 <= T < 2 ^ 63 ->
  (until clock fuel T k = Some k' <->
   (k < k' <= k + fuel)%nat /\ T <= clock (k' - 1)%nat /\
   forall i, (k <= i < k' - 1)%nat -> clock i < T).
Proof.
  intros Hclock HT; revert k.
  induction fuel as [|fuel IH]; intros k; cbn [until].
  - split; [discriminate|intros (Hk & _); lia].
  - pose proof (Hclock k) as Hk.
    rewrite to_int64_small by lia.
    destruct (Z.gtb_spec (T - clock k) 0) as [Hgt|Hle].
    + rewrite IH; split.
      * intros (Hr & Hreach & Hbefore).
        split; [lia|split; [exact Hreach|]].
        intros i Hi; destruct (Nat.eq_dec i k) as [->|Hne]; [lia|].
        apply Hbefore; lia.
      * intros (Hr & Hreach & Hbefore).
        assert (k' <> S k).
        { intros ->; replace (S k - 1)%nat with k in Hreach by lia; lia. }
        split; [lia|split; [exact Hreach|]].
        intros i Hi; apply Hbefore; lia.
    + split.
      * intros [= <-]; replace (S k - 1)%nat with k by lia.
        split; [lia|split; [lia|intros i Hi; lia]].
      * intros (Hr & Hreach & Hbefore).
        destruct (Nat.eq_dec k' (S k)) as [->|Hne]; [reflexivity|].
        specialize (Hbefore k ltac:(lia)); lia.
Qed.

Lemma until_first_reading_witness :
  until (fun i => Z.min (10 + Z.of_nat i) 100) 5 12 0 = Some 3%nat <->
  (0 < 3 <= 0 + 5)%nat /\
  12 <= (fun i => Z.min (10 + Z.of_nat i) 100) (3 - 1)%nat /\
  forall i, (0 <= i < 3 - 1)%nat ->
            (fun i => Z.min (10 + Z.of_nat i) 100) i < 12.
Proof.
  refine (until_first_reading (fun i => Z.min (10 + Z.of_nat i) 100)
            5 12 0 3 _ _).
  - intros i; lia.
  - lia.
Defined.

(** ** The first identifier *)

(** X21: the first call on a new generator.  For a node of 16 bits, a
    nonce between 0 and [MaxNonce] and a clock reading [now] between 1 and
    [2^48 - 1], the first [Next] returns after that one reading, without
    waiting, an identifier with [Node] the node, [Nonce] the nonce, [Time]
    the reading and [SN] 0. *)
Theorem Next_first_call (clock : nat -> Z) (fuel : nat) (nodeid nonce0 : Z)
    (g : SnowflakePro) (k : nat) :
  0 <= nodeid < 2 ^ 16 -> 0 <= nonce0 ->
  0 < clock k <= 2 ^ 48 - 1 ->
  NewSnowflakePro nodeid nonce0 = (Some g, None) ->
  exists g' id,
    Next clock fuel g k = Some (g', S k, id) /\
    Node id = nodeid /\ Nonce id = nonce0 /\
    Time id = clock k /\ SN id = 0 /\
    tms g' = clock k /\ sn g' = 0.
Proof.
  intros Hnode Hnonce Hnow Hnew.
  unfold NewSnowflakePro in Hnew.
  destruct (Z.gtb_spec nonce0 MaxNonce) as [Hbig|Hsmall];
    [discriminate Hnew|].
  injection Hnew as <-.
  rewrite <- maxTime_value in Hnow.
  pose proof (Next_locked_fresh clock fuel
                {| sn := 0; node := nodeid; nonce := nonce0; tms := 0 |} k
                ltac:(lia) ltac:(cbn [tms]; lia)) as Hl.
  cbn [node nonce] in Hl.
  do 2 eexists; split; [unfold Next; rewrite Hl; reflexivity|].
  cbn [tms sn node nonce].
  destruct (identifier_Node_Nonce nodeid nonce0 (clock k) 0)
    as (_ & HN & HO); [lia|lia|].
  fold (identifier nodeid nonce0 (clock k) 0).
  rewrite identifier_Time, identifier_SN by (rewrite ?maxSN_value; lia).
  repeat split; assumption.
Qed.

Lemma Next_first_call_witness :
  exists g' id,
    Next (fun _ => 1700000000000) 0
         {| sn := 0; node := 100; nonce := 123456789; tms := 0 |} 0 =
      Some (g', 1%nat, id) /\
    Node id = 100 /\ Nonce id = 123456789 /\
    Time id = 1700000000000 /\ SN id = 0 /\
    tms g' = 1700000000000 /\ sn g' = 0.
Proof.
  refine (Next_first_call (fun _ => 1700000000000) 0 100 123456789
            {| sn := 0; node := 100; nonce := 123456789; tms := 0 |} 0
            _ _ _ _).
  - lia.
  - lia.
  - lia.
  - reflexivity.
Defined.

(** ** Decoding into an identifier in use *)

(** X22: a successful text decoding overwrites the whole destination: the
    identifier after [parse] (so after [UnmarshalText], and after [Scan] of
    a string) with no error does not depend on what the destination held
    before, and the outcome, error or not, is the same for every
    destination. *)
Theorem parse_overwrites_destination (v : list Z) (strict : bool)
    (id1 id2 : SFID) :
  length id1 = SFID_len -> length id2 = SFID_len ->
  snd (parse v strict id1) = snd (parse v strict id2) /\
  (snd (parse v strict id1) = None ->
   parse v strict id1 = parse v strict id2) /\
  (snd (UnmarshalText id1 v) = None ->
   UnmarshalText id1 v = UnmarshalText id2 v) /\
  (forall s, snd (Scan id1 (SrcString s)) = None ->
             Scan id1 (SrcString s) = Scan id2 (SrcString s)).
Proof.
  intros H1 H2.
  assert (Hgen : forall w st,
            snd (parse w st id1) = snd (parse w st id2) /\
            (snd (parse w st id1) = None ->
             parse w st id1 = parse w st id2)).
  { intros w st.
    destruct (parse_cases w st id1)
      as [(Hl & E)|[(Hl & Hs & Hx & E)|[(Hl & Hok & Hg & E)|(Hl & Hok & Hg & E)]]].
    - rewrite E; cbn [snd].
      destruct (parse_cases w st id2)
        as [(_ & E')|[(Hl' & _)|[(Hl' & _)|(Hl' & _)]]];
        try contradiction.
      rewrite E'; split; [reflexivity|discriminate].
    - rewrite E; cbn [snd]; subst st.
      destruct (parse_cases w true id2)
        as [(Hl' & _)|[(_ & _ & _ & E')|[(_ & Hok' & _)|(_ & Hok' & _)]]];
        try contradiction.
      + rewrite E'; split; [reflexivity|discriminate].
      + destruct Hx as (c & Hin & Hc); destruct (Hok' eq_refl c Hin Hc).
      + destruct Hx as (c & Hin & Hc); destruct (Hok' eq_refl c Hin Hc).
    - rewrite E; cbn [snd].
      destruct (parse_cases w st id2)
        as [(Hl' & _)|[(_ & Hs' & Hx' & _)|[(_ & _ & _ & E')|(_ & _ & Hle & _)]]];
        try contradiction; try lia.
      + destruct Hx' as (c & Hin & Hc); destruct (Hok Hs' c Hin Hc).
      + rewrite E'; split; [reflexivity|discriminate].
    - assert (Hvalid : st = true -> Forall (fun c => dec c <> 0xFF) w)
        by (intros Hs; apply Forall_forall; exact (Hok Hs)).
      rewrite (parse_assemble w st id1), (parse_assemble w st id2)
        by assumption.
      split; reflexivity. }
  split; [apply Hgen|].
  split; [apply Hgen|].
  split; [apply (Hgen v false)|].
  intros s Hok; cbn [Scan] in *; unfold UnmarshalText in *.
  apply (Hgen (bytes_of_string s) false), Hok.
Qed.

Lemma parse_overwrites_destination_witness :
  snd (parse (bytes_of_string "01AN4Z07BY79KA1307SR9X4MV3") true zero_SFID) =
  snd (parse (bytes_of_string "01AN4Z07BY79KA1307SR9X4MV3") true
         [1; 139; 207; 229; 104; 0; 0; 100; 0; 7; 91; 205; 21; 0; 0; 255]).
Proof.
  refine (proj1 (parse_overwrites_destination
    (bytes_of_string "01AN4Z07BY79KA1307SR9X4MV3") true zero_SFID
    [1; 139; 207; 229; 104; 0; 0; 100; 0; 7; 91; 205; 21; 0; 0; 255] _ _));
    reflexivity.
Defined.
